(** * vscode-eslint language server: message queue and auto-fix engine

    A shallow embedding of the server's [BufferedMessageQueue], of the
    correlation store [codeActions], of the [Fixes] class and of the
    code-action / execute-command handlers, with the properties the
    specification states about them.

    Conventions.
    - JavaScript numbers that hold offsets, versions, lines and columns are
      integers; they are modelled as [Z].
    - A variable or field that is [undefined] (or [null], where the code
      does not tell the two apart) is [None]; a value that a template string
      prints, which shows [undefined] and [null] as different words, is a
      [Nullable].
    - A JavaScript [Map] whose iteration order is observed ([forEach]) is an
      association list in insertion order; a [Map] that is only read with
      [get] and written with [set] / [delete] is a [gmap]. *)

From stdpp Require Import base option list strings gmap sorting pretty.
From Stdlib Require Import ZArith Lia Ascii.

Set Default Proof Using "Type".

(** ** Data model *)

(** [interface ESLintAutoFixEdit { range: [number, number]; text: string }] *)
Record ESLintAutoFixEdit := mkEdit {
  range : Z * Z;
  text : string;
}.

(** [interface AutoFix] *)
Record AutoFix := mkAutoFix {
  label : string;
  documentVersion : Z;
  ruleId : string;
  edit : ESLintAutoFixEdit;
}.

(** [editInfo.edit.range[0]] and [editInfo.edit.range[1]]. *)
Definition range0 (f : AutoFix) : Z := fst (range (edit f)).
Definition range1 (f : AutoFix) : Z := snd (range (edit f)).

(** ** Insertion-ordered maps ([Map<string, V>] iterated with [forEach]) *)

Module OMap.

Definition t (V : Type) := list (string * V).

Fixpoint get {V} (k : string) (m : t V) : option V :=
  match m with
  | [] => None
  | (k', v') :: m' => if decide (k' = k) then Some v' else get k m'
  end.

(** [Map.prototype.set]: an existing key keeps its position and gets the
    new value, a new key goes to the end. *)
Fixpoint set {V} (k : string) (v : V) (m : t V) : t V :=
  match m with
  | [] => [(k, v)]
  | (k', v') :: m' =>
      if decide (k' = k) then (k, v) :: m' else (k', v') :: set k v m'
  end.

(** The values in iteration order ([forEach], [values()]). *)
Definition values {V} (m : t V) : list V := snd <$> m.

Definition size {V} (m : t V) : nat := length m.

End OMap.

(** ** Diagnostics and their keys *)

(** A string that may be missing in one of JavaScript's two ways. *)
Inductive Nullable (A : Type) : Type :=
  | Undefined
  | Null
  | Defined (a : A).

Arguments Undefined {A}.
Arguments Null {A}.
Arguments Defined {A} a.

Module Position.
Record t := mk { line : Z; character : Z }.
End Position.

Module Range.
Record t := mk { start : Position.t; end_ : Position.t }.
End Range.

(** The two severities [convertSeverity] produces. *)
Inductive DiagnosticSeverity := Error | Warning.

Module Diagnostic.
Record t := mk {
  message : string;
  severity : DiagnosticSeverity;
  source : string;
  range : Range.t;
  code : Nullable string;   (* a number as code is held in its printed form *)
}.
End Diagnostic.

(** [interface ESLintProblem]; [ruleId] is [null] for problems that no rule
    produced (and [undefined] if the linter leaves it out); [endLine],
    [endColumn] and [fix] (here [fix_]) are optional. *)
Module ESLintProblem.
Record t := mk {
  line : Z;
  column : Z;
  endLine : option Z;
  endColumn : option Z;
  severity : Z;
  ruleId : Nullable string;
  message : string;
  fix_ : option ESLintAutoFixEdit;
}.
End ESLintProblem.

(** A template-string hole [${x}]: a number prints in decimal, [undefined]
    and [null] print as these words. *)
Definition showNumber (z : Z) : string := pretty z.

Definition showNullable (s : Nullable string) : string :=
  match s with
  | Undefined => "undefined"
  | Null => "null"
  | Defined s => s
  end.

Definition convertSeverity (severity : Z) : DiagnosticSeverity :=
  if bool_decide (severity = 1)%Z then Warning
  else if bool_decide (severity = 2)%Z then Error
  else Error.

Definition makeDiagnostic (problem : ESLintProblem.t) : Diagnostic.t :=
  let message :=
    match ESLintProblem.ruleId problem with
    | Defined r => ESLintProblem.message problem +:+ " (" +:+ r +:+ ")"
    | Undefined | Null => ESLintProblem.message problem
    end in
  let startLine := Z.max 0 (ESLintProblem.line problem - 1) in
  let startChar := Z.max 0 (ESLintProblem.column problem - 1) in
  let endLine :=
    match ESLintProblem.endLine problem with
    | Some l => Z.max 0 (l - 1)
    | None => startLine
    end in
  let endChar :=
    match ESLintProblem.endColumn problem with
    | Some c => Z.max 0 (c - 1)
    | None => startChar
    end in
  Diagnostic.mk message (convertSeverity (ESLintProblem.severity problem)) "eslint"
    (Range.mk (Position.mk startLine startChar) (Position.mk endLine endChar))
    (ESLintProblem.ruleId problem).

Definition computeKey (diagnostic : Diagnostic.t) : string :=
  let range := Diagnostic.range diagnostic in
  "[" +:+ showNumber (Position.line (Range.start range))
  +:+ "," +:+ showNumber (Position.character (Range.start range))
  +:+ "," +:+ showNumber (Position.line (Range.end_ range))
  +:+ "," +:+ showNumber (Position.character (Range.end_ range))
  +:+ "]-" +:+ showNullable (Diagnostic.code diagnostic).

(** ** The [Fixes] class *)

Module Fixes.

(** [overlaps(lastEdit, newEdit)]:
    [!!lastEdit && lastEdit.edit.range[1] > newEdit.edit.range[0]]. *)
Definition overlaps (lastEdit : option AutoFix) (newEdit : AutoFix) : bool :=
  match lastEdit with
  | None => false
  | Some l => bool_decide (range1 l > range0 newEdit)%Z
  end.

Definition isEmpty (edits : OMap.t AutoFix) : bool :=
  bool_decide (OMap.size edits = 0).

(** [getDocumentVersion]: throws ['No edits recorded.'] on an empty map,
    otherwise the version of the first entry. *)
Definition getDocumentVersion (edits : OMap.t AutoFix) : string + Z :=
  if isEmpty edits then inl "No edits recorded."
  else match OMap.values edits with
       | v :: _ => inr (documentVersion v)
       | [] => inl "No edits recorded."
       end.

(** [getScoped(diagnostics)] *)
Definition getScoped (edits : OMap.t AutoFix) (diagnostics : list Diagnostic.t)
    : list AutoFix :=
  foldl (λ result diagnostic,
           let key := computeKey diagnostic in
           match OMap.get key edits with
           | Some editInfo => result ++ [editInfo]
           | None => result
           end)
        [] diagnostics.

(** The comparator passed to [sort] in [getAllSorted]. *)
Definition compareFixes (a b : AutoFix) : Z :=
  let d := (range0 a - range0 b)%Z in
  if bool_decide (d ≠ 0)%Z then d
  else if bool_decide (range1 a = 0)%Z then (-1)%Z
  else if bool_decide (range1 b = 0)%Z then 1%Z
  else (range1 a - range1 b)%Z.

(** [a] may stay in front of [b]: the comparator does not ask for a swap. *)
Definition inOrder (a b : AutoFix) : Prop := (compareFixes a b ≤ 0)%Z.

Global Instance inOrder_dec a b : Decision (inOrder a b) :=
  decide (compareFixes a b ≤ 0)%Z.

(** [Array.prototype.sort(compareFn)] as a stable insertion sort: an
    element moves behind the elements that follow it for which the comparator
    returns a positive number, so that fixes that compare equal keep the
    order of the array.  Every stable sort returns this list where the
    comparator is consistent.  [compareFixes] is not for two fixes with the
    range [[s, 0]] (it returns [-1] either way), and there the order is the
    engine's; the properties below only use that the result is a
    permutation of the input in which every earlier element is [inOrder]
    with every later one. *)
Fixpoint insert (element : AutoFix) (sorted : list AutoFix) : list AutoFix :=
  match sorted with
  | [] => [element]
  | next :: sorted' =>
      if bool_decide (compareFixes element next > 0)%Z
      then next :: insert element sorted'
      else element :: sorted
  end.

Definition sort (l : list AutoFix) : list AutoFix := foldr insert [] l.

Definition getAllSorted (edits : OMap.t AutoFix) : list AutoFix :=
  let result := OMap.values edits in
  sort result.

(** [getOverlapFree]: the loop state is [(result, last)]. *)
Definition getOverlapFree (edits : OMap.t AutoFix) : list AutoFix :=
  let sorted := getAllSorted edits in
  if bool_decide (length sorted ≤ 1) then sorted
  else
    match sorted with
    | [] => sorted
    | first :: rest =>
        fst (foldl (λ '(result, last) current,
                     if negb (overlaps (Some last) current)
                     then (result ++ [current], current)
                     else (result, last))
                   ([first], first) rest)
    end.

End Fixes.

(** ** The greedy scan in the words of the specification *)

(** "for each subsequent candidate, keep it (and make it the new [last]) only
    if [last.range.end <= candidate.range.start]; otherwise drop it". *)
Fixpoint keepAfter (last : AutoFix) (candidates : list AutoFix) : list AutoFix :=
  match candidates with
  | [] => []
  | c :: cs =>
      if bool_decide (range1 last ≤ range0 c)%Z
      then c :: keepAfter c cs
      else keepAfter last cs
  end.

(** "Maintain [last = first element]". *)
Definition greedyScan (sorted : list AutoFix) : list AutoFix :=
  match sorted with
  | [] => []
  | first :: rest => first :: keepAfter first rest
  end.

(** Fixes built for examples: only the range and the rule matter. *)
Definition fixAt (rule : string) (s e : Z) : AutoFix :=
  mkAutoFix ("Fix this " +:+ rule +:+ " problem") 1 rule (mkEdit (s, e) "").

Definition snapshotOf (l : list (string * AutoFix)) : OMap.t AutoFix :=
  foldl (λ m kv, OMap.set (fst kv) (snd kv) m) [] l.

(** ** Documents *)

Module TextEdit.
Record t := mk { range : Range.t; newText : string }.
End TextEdit.

(** The part of a [TextDocument] the server reads: [getText] is consumed by
    the lint collaborator only. *)
Module TextDocument.
Record t := mk {
  uri : string;
  version : Z;
  positionAt : Z → Position.t;
}.
End TextDocument.

Module VersionedTextDocumentIdentifier.
Record t := mk { uri : string; version : Z }.
End VersionedTextDocumentIdentifier.

(** ** The correlation store [codeActions] and the validation pass *)

Abbreviation CodeActions := (gmap string (OMap.t AutoFix)).

(** JavaScript truthiness of a nullable string: [undefined], [null] and ['']
    are falsy. *)
Definition truthy (s : Nullable string) : option string :=
  match s with
  | Defined r => if bool_decide (r = "") then None else Some r
  | Undefined | Null => None
  end.

Definition recordCodeAction (document : TextDocument.t) (diagnostic : Diagnostic.t)
    (problem : ESLintProblem.t) (codeActions : CodeActions) : CodeActions :=
  match ESLintProblem.fix_ problem, truthy (ESLintProblem.ruleId problem) with
  | Some fix_, Some rule =>
      let uri := TextDocument.uri document in
      let edits := default [] (codeActions !! uri) in
      <[uri := OMap.set (computeKey diagnostic)
                 (mkAutoFix ("Fix this " +:+ rule +:+ " problem")
                            (TextDocument.version document) rule fix_)
                 edits]> codeActions
  | _, _ => codeActions
  end.

(** The lint collaborator: [messages] may hold [null] entries, which
    [validate] skips. *)
Record ESLintDocumentReport := mkDocReport {
  messages : list (option ESLintProblem.t);
}.

Record ESLintReport := mkReport {
  results : list ESLintDocumentReport;
}.

(** What the collaborator does in one pass: the engine constructor throws,
    [executeOnText] throws, or a report comes back. *)
Inductive LintOutcome :=
  | EngineThrows
  | ExecuteThrows
  | Reports (report : ESLintReport).

(** The result of [validate]: the store afterwards, and either the
    diagnostics handed to [connection.sendDiagnostics] (if any) or the
    exception that left the function. *)
Inductive ValidateResult :=
  | Validated (codeActions : CodeActions) (sent : option (string * list Diagnostic.t))
  | ValidateThrew (codeActions : CodeActions).

(** The body of [docReport.messages.forEach]; the state is
    [(diagnostics, codeActions)]. *)
Definition validateProblem (document : TextDocument.t) (autoFix : bool)
    (st : list Diagnostic.t * CodeActions) (problem : option ESLintProblem.t)
    : list Diagnostic.t * CodeActions :=
  match problem with
  | Some problem =>
      let diagnostic := makeDiagnostic problem in
      let diagnostics := st.1 ++ [diagnostic] in
      if autoFix
      then (diagnostics, recordCodeAction document diagnostic problem st.2)
      else (diagnostics, st.2)
  | None => st
  end.

(** [validate(document, settings, publishDiagnostics)]; of the settings only
    [settings.autoFix] reaches the store, the others choose the working
    directory of the engine. *)
Definition validate (document : TextDocument.t) (autoFix : bool)
    (publishDiagnostics : bool) (lint : LintOutcome) (codeActions : CodeActions)
    : ValidateResult :=
  let uri := TextDocument.uri document in
  match lint with
  | EngineThrows => ValidateThrew codeActions
  | ExecuteThrows => ValidateThrew (delete uri codeActions)
  | Reports report =>
      let codeActions := delete uri codeActions in
      let '(diagnostics, codeActions) :=
        match results report with
        | docReport :: _ =>
            foldl (validateProblem document autoFix) ([], codeActions)
                  (messages docReport)
        | [] => ([], codeActions)
        end in
      Validated codeActions
        (if publishDiagnostics then Some (uri, diagnostics) else None)
  end.

(** The findings of a report that [recordCodeAction] acts on. *)
Definition fixable (problem : ESLintProblem.t) : Prop :=
  is_Some (ESLintProblem.fix_ problem) ∧ is_Some (truthy (ESLintProblem.ruleId problem)).

(** The [AutoFix] that [recordCodeAction] builds for a finding. *)
Definition autoFixOf (document : TextDocument.t) (problem : ESLintProblem.t)
    : option AutoFix :=
  fix_ ← ESLintProblem.fix_ problem;
  rule ← truthy (ESLintProblem.ruleId problem);
  Some (mkAutoFix ("Fix this " +:+ rule +:+ " problem")
                  (TextDocument.version document) rule fix_).

(** ** Code actions and commands *)

Module CommandIds.
Definition applySingleFix : string := "eslint.applySingleFix".
Definition applySameFixes : string := "eslint.applySameFixes".
Definition applyAllFixes : string := "eslint.applyAllFixes".
Definition applyAutoFix : string := "eslint.applyAutoFix".
End CommandIds.

Record Command := mkCommand { title : string; command : string }.

(** A [WorkspaceChange] of this server holds the edits of one document:
    [getTextEditChange(identifier)] followed by [add] for each edit. *)
Record WorkspaceChange := mkWorkspaceChange {
  textDocument : VersionedTextDocumentIdentifier.t;
  edits : list TextEdit.t;
}.

(** [createTextEdit(editInfo)]; reading [positionAt] of a document that
    [documents.get] did not find throws, which is [None] here. *)
Definition createTextEdit (textDocument : option TextDocument.t) (editInfo : AutoFix)
    : option TextEdit.t :=
  textDocument ← textDocument;
  Some (TextEdit.mk
          (Range.mk (TextDocument.positionAt textDocument (range0 editInfo))
                    (TextDocument.positionAt textDocument (range1 editInfo)))
          (text (edit editInfo))).

(** [getLastEdit(array)] *)
Definition getLastEdit (array : list AutoFix) : option AutoFix :=
  let length := length array in
  if bool_decide (length = 0) then None
  else array !! (length - 1).

(** The body of the loop over [fixes.getAllSorted()] in the code-action
    handler; the state is [(documentVersion, same, all)] and [ruleId0] is the
    variable [ruleId] the loop over the scoped fixes has set. *)
Definition batchStep (ruleId0 : option string)
    (st : Z * list AutoFix * list AutoFix) (editInfo : AutoFix)
    : Z * list AutoFix * list AutoFix :=
  let '(documentVersion0, same, all) := st in
  let documentVersion0 :=
    if bool_decide (documentVersion0 = -1)%Z then documentVersion editInfo
    else documentVersion0 in
  let same :=
    if bool_decide (Some (ruleId editInfo) = ruleId0)
       && negb (Fixes.overlaps (getLastEdit same) editInfo)
    then same ++ [editInfo] else same in
  let all :=
    if negb (Fixes.overlaps (getLastEdit all) editInfo)
    then all ++ [editInfo] else all in
  (documentVersion0, same, all).

Definition batches (ruleId0 : option string) (documentVersion0 : Z)
    (sorted : list AutoFix) : Z * list AutoFix * list AutoFix :=
  foldl (batchStep ruleId0) (documentVersion0, [], []) sorted.

(** The state of the loop over the scoped fixes:
    [(documentVersion, ruleId, commands, result)]. *)
Definition ScopedState : Type :=
  Z * option string * gmap string WorkspaceChange * list Command.

Definition scopedStep (uri : string) (textDocument : option TextDocument.t)
    (st : option ScopedState) (editInfo : AutoFix) : option ScopedState :=
  '(_, _, commands, result) ← st;
  textEdit ← createTextEdit textDocument editInfo;
  let documentVersion0 := documentVersion editInfo in
  let workspaceChange :=
    mkWorkspaceChange (VersionedTextDocumentIdentifier.mk uri documentVersion0)
                      [textEdit] in
  Some (documentVersion0, Some (ruleId editInfo),
        <[CommandIds.applySingleFix := workspaceChange]> commands,
        result ++ [mkCommand (label editInfo) CommandIds.applySingleFix]).

(** One bulk command: nothing happens unless the batch has more than one
    fix. *)
Definition bulkCommand (uri : string) (textDocument : option TextDocument.t)
    (documentVersion0 : Z) (batch : list AutoFix) (title id : string)
    (st : gmap string WorkspaceChange * list Command)
    : option (gmap string WorkspaceChange * list Command) :=
  if bool_decide (1 < length batch) then
    textEdits ← mapM (createTextEdit textDocument) batch;
    Some (<[id := mkWorkspaceChange
                    (VersionedTextDocumentIdentifier.mk uri documentVersion0)
                    textEdits]> st.1,
          st.2 ++ [mkCommand title id])
  else Some st.

Record CodeActionParams := mkCodeActionParams {
  ca_uri : string;                      (* params.textDocument.uri *)
  ca_diagnostics : list Diagnostic.t;   (* params.context.diagnostics *)
}.

(** The handler registered for [CodeActionRequest]: the new value of the
    global [commands] and the returned [Command[]], or [None] when the
    handler throws. *)
Definition codeActionHandler (documents : gmap string TextDocument.t)
    (codeActions : CodeActions) (params : CodeActionParams)
    : option (gmap string WorkspaceChange * list Command) :=
  let uri := ca_uri params in
  match codeActions !! uri with
  | None => Some (∅, [])
  | Some edits =>
      if Fixes.isEmpty edits then Some (∅, [])
      else
        let textDocument := documents !! uri in
        '(documentVersion0, ruleId0, commands, result) ←
          foldl (scopedStep uri textDocument) (Some (-1, None, ∅, []))%Z
                (Fixes.getScoped edits (ca_diagnostics params));
        if bool_decide (0 < length result) then
          let '(documentVersion0, same, all) :=
            batches ruleId0 documentVersion0 (Fixes.getAllSorted edits) in
          st ← bulkCommand uri textDocument documentVersion0 same
                 ("Fix all " +:+ showNullable (from_option Defined Undefined ruleId0)
                  +:+ " problems")
                 CommandIds.applySameFixes (commands, result);
          bulkCommand uri textDocument documentVersion0 all
            "Fix all auto-fixable problems" CommandIds.applyAllFixes st
        else Some (commands, result)
  end.

(** [computeAllFixes(identifier)]; [None] is [undefined]. *)
Definition computeAllFixes (documents : gmap string TextDocument.t)
    (codeActions : CodeActions) (identifier : VersionedTextDocumentIdentifier.t)
    : option (list TextEdit.t) :=
  let uri := VersionedTextDocumentIdentifier.uri identifier in
  match documents !! uri with
  | None => None
  | Some textDocument =>
      if bool_decide (VersionedTextDocumentIdentifier.version identifier
                      ≠ TextDocument.version textDocument)
      then None
      else
        match codeActions !! uri with
        | Some edits =>
            if negb (Fixes.isEmpty edits)
            then mapM (createTextEdit (Some textDocument)) (Fixes.getOverlapFree edits)
            else None
        | None => None
        end
  end.

Record ExecuteCommandParams := mkExecuteCommandParams {
  ec_command : string;                                   (* params.command *)
  ec_arguments : list VersionedTextDocumentIdentifier.t; (* params.arguments *)
}.

(** What the execute-command handler does: it returns [{}] at once, it
    calls [connection.workspace.applyEdit] with a change, or it throws
    (no [params.arguments[0]], or [commands] still unset). *)
Inductive ExecuteResult :=
  | EmptyResult
  | ApplyEdit (workspaceChange : WorkspaceChange)
  | ExecuteThrew.

Definition executeCommandHandler (documents : gmap string TextDocument.t)
    (codeActions : CodeActions) (commands : option (gmap string WorkspaceChange))
    (params : ExecuteCommandParams) : ExecuteResult :=
  let workspaceChange : option (option WorkspaceChange) :=
    if bool_decide (ec_command params = CommandIds.applyAutoFix) then
      match ec_arguments params with
      | identifier :: _ =>
          match computeAllFixes documents codeActions identifier with
          | Some edits => Some (Some (mkWorkspaceChange identifier edits))
          | None => Some None
          end
      | [] => None
      end
    else
      commands ← commands;
      Some (commands !! ec_command params) in
  match workspaceChange with
  | None => ExecuteThrew
  | Some None => EmptyResult
  | Some (Some workspaceChange) => ApplyEdit workspaceChange
  end.

(** How a call of a handler or of a version provider ends: it returns a
    value, or an exception leaves it. *)
Inductive Outcome (A : Type) : Type :=
  | Returned (a : A)
  | Thrown.

Arguments Returned {A} a.
Arguments Thrown {A}.

(** The version provider registered with the execute-command handler; for
    [applyAutoFix] without [params.arguments[0]] reading [identifier.version]
    throws. *)
Definition executeCommandVersion (params : ExecuteCommandParams) : Outcome (option Z) :=
  if bool_decide (ec_command params = CommandIds.applyAutoFix) then
    match ec_arguments params with
    | identifier :: _ =>
        Returned (Some (VersionedTextDocumentIdentifier.version identifier))
    | [] => Thrown
    end
  else Returned None.

(** ** The message queue *)

(** [ErrorCodes] of the protocol library; the queue only uses one. *)
Inductive ErrorCodes := RequestCancelled.

(** A value a pending result is rejected with: a [ResponseError] of the
    queue, whatever a handler's deferred result failed with, or the exception
    of a version provider that threw inside the promise executor of the
    request listener. *)
Inductive Failure :=
  | ResponseError (code : ErrorCodes) (message : string)
  | HandlerFailure (reason : string)
  | ProviderFailure.

Section MessageQueue.

(** [P] is the type of the parameters of a message, [R] of the results of
    request handlers, and [World] is the state of the server outside the
    queue: the open documents and their versions, the correlation store,
    the cancellation tokens. *)
Context {P R World : Type}.

(** [token.isCancellationRequested], read when the message is dispatched;
    a token is named by a number. *)
Variable isCancellationRequested : World → nat → bool.

(** One queued message.  [Request<P, R>] and [Notifcation<P>] are one object
    type at run time: a notification has no [resolve], [reject] and [token].
    [resolve] and [reject] hold the name of the pending result they settle. *)
Record Message := mkMessage {
  method : string;
  params : P;
  msgVersion : option Z;     (* documentVersion: number | undefined *)
  resolve : option nat;
  reject : option nat;
  token : option nat;
}.

(** [Request.is(value)] *)
Definition Request_is (candidate : Message) : bool :=
  bool_decide (is_Some (token candidate))
  && bool_decide (is_Some (resolve candidate))
  && bool_decide (is_Some (reject candidate)).

(** [interface VersionProvider<P> { (params: P): number }]; the provider
    reads the live documents, and may find none ([undefined]) or throw. *)
Definition VersionProvider : Type := P → World → Outcome (option Z).

(** What a handler returns: a value, or a [Thenable] named by a number. *)
Inductive HandlerResult :=
  | Value (value : R)
  | Deferred (thenable : nat).

(** A call of [messageQueue.addNotificationMessage(type, params, version)]. *)
Definition Added : Type := string * P * Z.

(** A handler changes the world, may add notifications to the queue (as
    [environmentChanged] and [validateMany] do) and then returns (for a
    request, a result) or throws. *)
Definition RequestHandler : Type :=
  P → nat → World → World * list Added * Outcome HandlerResult.
Definition NotificationHandler : Type :=
  P → World → World * list Added * Outcome unit.

Record RequestEntry := mkRequestEntry {
  rq_handler : RequestHandler;
  rq_versionProvider : option VersionProvider;
}.

Record NotificationEntry := mkNotificationEntry {
  nt_handler : NotificationHandler;
  nt_versionProvider : option VersionProvider;
}.

(** What an observer of the server sees the queue do.  The last three are
    exceptions that leave a callback of the queue: the [TypeError] of reading
    [elem.versionProvider] of [undefined], the exception of a version
    provider, and the exception of a handler. *)
Inductive Effect :=
  | CallRequestHandler (method : string) (params : P) (token : nat)
  | CallNotificationHandler (method : string) (params : P)
  | Rejects (sink : nat) (error : Failure)
  | Resolves (sink : nat) (value : R)
  | Awaits (thenable : nat) (sink : nat)
  | ThrowsTypeError
  | ProviderThrows
  | HandlerThrows.

(** The fields of [BufferedMessageQueue], the listeners it has installed on
    the connection (each closes over the version provider it was registered
    with), the world, and three histories kept for the statements below:
    the effects so far, every message ever pushed and every message ever
    shifted. *)
Record Server := mkServer {
  queue : list Message;
  requestHandlers : gmap string RequestEntry;
  notificationHandlers : gmap string NotificationEntry;
  timer : bool;
  onRequestListener : gmap string (option VersionProvider);
  onNotificationListener : gmap string (option VersionProvider);
  world : World;
  effects : list Effect;
  pushed : list Message;
  shifted : list Message;
}.

Definition withTimer (s : Server) (t : bool) : Server :=
  mkServer (queue s) (requestHandlers s) (notificationHandlers s) t
    (onRequestListener s) (onNotificationListener s) (world s) (effects s)
    (pushed s) (shifted s).

Definition withWorld (s : Server) (w : World) : Server :=
  mkServer (queue s) (requestHandlers s) (notificationHandlers s) (timer s)
    (onRequestListener s) (onNotificationListener s) w (effects s)
    (pushed s) (shifted s).

Definition emit (s : Server) (e : list Effect) : Server :=
  mkServer (queue s) (requestHandlers s) (notificationHandlers s) (timer s)
    (onRequestListener s) (onNotificationListener s) (world s) (effects s ++ e)
    (pushed s) (shifted s).

(** [new BufferedMessageQueue(connection)] *)
Definition newServer (w : World) : Server :=
  mkServer [] ∅ ∅ false ∅ ∅ w [] [] [].

(** [this.queue.push(message)] *)
Definition push (message : Message) (s : Server) : Server :=
  mkServer (queue s ++ [message]) (requestHandlers s) (notificationHandlers s)
    (timer s) (onRequestListener s) (onNotificationListener s) (world s)
    (effects s) (pushed s ++ [message]) (shifted s).

(** [this.queue.shift()] on a queue whose head is [message]. *)
Definition shift (message : Message) (rest : list Message) (s : Server) : Server :=
  mkServer rest (requestHandlers s) (notificationHandlers s)
    (timer s) (onRequestListener s) (onNotificationListener s) (world s)
    (effects s) (pushed s) (shifted s ++ [message]).

(** [trigger()]: arm the deferred drain unless one is armed or the queue is
    empty. *)
Definition trigger (s : Server) : Server :=
  if timer s || bool_decide (length (queue s) = 0) then s
  else withTimer s true.

Definition registerRequest (type : string) (handler : RequestHandler)
    (versionProvider : option VersionProvider) (s : Server) : Server :=
  mkServer (queue s)
    (<[type := mkRequestEntry handler versionProvider]> (requestHandlers s))
    (notificationHandlers s) (timer s)
    (<[type := versionProvider]> (onRequestListener s))
    (onNotificationListener s) (world s) (effects s) (pushed s) (shifted s).

Definition registerNotification (type : string) (handler : NotificationHandler)
    (versionProvider : option VersionProvider) (s : Server) : Server :=
  mkServer (queue s) (requestHandlers s)
    (<[type := mkNotificationEntry handler versionProvider]> (notificationHandlers s))
    (timer s) (onRequestListener s)
    (<[type := versionProvider]> (onNotificationListener s))
    (world s) (effects s) (pushed s) (shifted s).

Definition onNotification (type : string) (handler : NotificationHandler)
    (versionProvider : option VersionProvider) (s : Server) : Server :=
  mkServer (queue s) (requestHandlers s)
    (<[type := mkNotificationEntry handler versionProvider]> (notificationHandlers s))
    (timer s) (onRequestListener s) (onNotificationListener s)
    (world s) (effects s) (pushed s) (shifted s).

Definition addNotificationMessage (type : string) (params : P) (version : Z)
    (s : Server) : Server :=
  trigger (push (mkMessage type params (Some version) None None None) s).

(** The version a listener stamps on a new message:
    [versionProvider ? versionProvider(params) : undefined]. *)
Definition stamp (versionProvider : option VersionProvider) (params : P)
    (w : World) : Outcome (option Z) :=
  match versionProvider with
  | Some versionProvider => versionProvider params w
  | None => Returned None
  end.

(** The listener [registerRequest] installs: the connection calls it with the
    parameters and a token; [sink] names the promise it returns.  The message
    is built inside the executor of that promise: when the version provider
    throws there, nothing is pushed and the promise is rejected with the
    exception. *)
Definition requestArrives (type : string) (params : P) (token sink : nat)
    (s : Server) : Server :=
  match onRequestListener s !! type with
  | Some versionProvider =>
      match stamp versionProvider params (world s) with
      | Returned documentVersion0 =>
          trigger (push (mkMessage type params documentVersion0
                                   (Some sink) (Some sink) (Some token)) s)
      | Thrown => emit s [Rejects sink ProviderFailure]
      end
  | None => s
  end.

(** The listener [registerNotification] installs; an exception of the
    version provider leaves the listener before anything is pushed. *)
Definition notificationArrives (type : string) (params : P) (s : Server) : Server :=
  match onNotificationListener s !! type with
  | Some versionProvider =>
      match stamp versionProvider params (world s) with
      | Returned documentVersion0 =>
          trigger (push (mkMessage type params documentVersion0 None None None) s)
      | Thrown => emit s [ProviderThrows]
      end
  | None => s
  end.

(** The staleness test of [processQueue]:
    [elem.versionProvider && message.documentVersion !== void 0 &&
     message.documentVersion !== elem.versionProvider(message.params)];
    the provider is called only when the two tests before it hold. *)
Definition stale (versionProvider : option VersionProvider) (message : Message)
    (w : World) : Outcome bool :=
  match versionProvider, msgVersion message with
  | Some versionProvider, Some documentVersion0 =>
      match versionProvider (params message) w with
      | Returned live => Returned (bool_decide (Some documentVersion0 ≠ live))
      | Thrown => Thrown
      end
  | _, _ => Returned false
  end.

(** The notifications a handler added while it ran. *)
Definition addAll (added : list Added) (s : Server) : Server :=
  foldl (λ s a, addNotificationMessage a.1.1 a.1.2 a.2 s) s added.

Definition cancelled : Failure := ResponseError RequestCancelled "Request got cancelled".

(** [processQueue()].  A message whose method has no entry in the handler
    map makes [elem.versionProvider] throw.  No exception is caught here: one
    that a version provider or a handler throws leaves the function at that
    point.  Where [Request.is] holds the message has its token and
    callbacks, so the last case of the inner match is never reached. *)
Definition processQueue (s : Server) : Server :=
  match queue s with
  | [] => s
  | message :: rest =>
      let s := shift message rest s in
      if Request_is message then
        match token message, resolve message, reject message with
        | Some token0, Some resolve0, Some reject0 =>
            if isCancellationRequested (world s) token0
            then emit s [Rejects reject0 cancelled]
            else
              match requestHandlers s !! method message with
              | None => emit s [ThrowsTypeError]
              | Some elem =>
                  match stale (rq_versionProvider elem) message (world s) with
                  | Thrown => emit s [ProviderThrows]
                  | Returned true => emit s [Rejects reject0 cancelled]
                  | Returned false =>
                      let s :=
                        emit s [CallRequestHandler (method message) (params message)
                                  token0] in
                      let '(w, added, result) :=
                        rq_handler elem (params message) token0 (world s) in
                      let s := addAll added (withWorld s w) in
                      match result with
                      | Thrown => emit s [HandlerThrows]
                      | Returned (Deferred thenable) =>
                          trigger (emit s [Awaits thenable resolve0])
                      | Returned (Value value) =>
                          trigger (emit s [Resolves resolve0 value])
                      end
                  end
              end
        | _, _, _ => s
        end
      else
        match notificationHandlers s !! method message with
        | None => emit s [ThrowsTypeError]
        | Some elem =>
            match stale (nt_versionProvider elem) message (world s) with
            | Thrown => emit s [ProviderThrows]
            | Returned true => s
            | Returned false =>
                let s :=
                  emit s [CallNotificationHandler (method message) (params message)] in
                let '(w, added, result) := nt_handler elem (params message) (world s) in
                let s := addAll added (withWorld s w) in
                match result with
                | Thrown => emit s [HandlerThrows]
                | Returned _ => trigger s
                end
            end
        end
  end.

(** The callback handed to [setImmediate]; it runs only when armed. *)
Definition tick (s : Server) : Server :=
  if timer s then processQueue (withTimer s false) else s.

(** A deferred handler result settles: every caller that awaits it gets the
    value or the failure. *)
Definition awaiting (thenable : nat) (e : Effect) : option nat :=
  match e with
  | Awaits t sink => if bool_decide (t = thenable) then Some sink else None
  | _ => None
  end.

Definition settle (thenable : nat) (outcome : R + Failure) (s : Server) : Server :=
  emit s (omap (λ e, sink ← awaiting thenable e;
                     Some match outcome with
                          | inl value => Resolves sink value
                          | inr error => Rejects sink error
                          end)
               (effects s)).

(** Everything that can happen to the server after start-up. *)
Inductive Event :=
  | RequestArrives (type : string) (params : P) (token sink : nat)
  | NotificationArrives (type : string) (params : P)
  | AddNotification (type : string) (params : P) (version : Z)
  | Tick
  | Settle (thenable : nat) (outcome : R + Failure)
  | Outside (change : World → World).

Definition step (s : Server) (e : Event) : Server :=
  match e with
  | RequestArrives type params token sink => requestArrives type params token sink s
  | NotificationArrives type params => notificationArrives type params s
  | AddNotification type params version => addNotificationMessage type params version s
  | Tick => tick s
  | Settle thenable outcome => settle thenable outcome s
  | Outside change => withWorld s (change (world s))
  end.

Definition run (es : list Event) (s : Server) : Server := foldl step s es.

(** Let the armed drain run until it is no longer armed, at most [fuel]
    ticks. *)
Fixpoint drain (fuel : nat) (s : Server) : Server :=
  match fuel with
  | 0 => s
  | S fuel => if timer s then drain fuel (tick s) else s
  end.

(** How often the effects call a handler, and how often they reject. *)
Definition isCall (e : Effect) : bool :=
  match e with
  | CallRequestHandler _ _ _ | CallNotificationHandler _ _ => true
  | _ => false
  end.

Definition isReject (e : Effect) : bool :=
  match e with Rejects _ _ => true | _ => false end.

Definition calls (es : list Effect) : nat := length (filter isCall es).
Definition rejections (es : list Effect) : nat := length (filter isReject es).

(** The effects of one [processQueue] on [s]. *)
Definition newEffects (s : Server) : list Effect :=
  drop (length (effects s)) (effects (processQueue s)).

(** The message [addNotificationMessage] pushes. *)
Definition addedMessage (a : Added) : Message :=
  mkMessage a.1.1 a.1.2 (Some a.2) None None None.

(** What the caller of a request sees of the result of its handler: the
    wait for a [Thenable], the value, or nothing but the exception. *)
Definition answer (sink : nat) (result : Outcome HandlerResult) : Effect :=
  match result with
  | Returned (Deferred thenable) => Awaits thenable sink
  | Returned (Value value) => Resolves sink value
  | Thrown => HandlerThrows
  end.

(** The handler call that the dispatch of [message] shows. *)
Definition callOf (message : Message) : Effect :=
  match token message with
  | Some token0 =>
      if Request_is message
      then CallRequestHandler (method message) (params message) token0
      else CallNotificationHandler (method message) (params message)
  | None => CallNotificationHandler (method message) (params message)
  end.






(** The exceptions among the effects. *)
Definition isThrow (e : Effect) : bool :=
  match e with
  | ThrowsTypeError | ProviderThrows | HandlerThrows => true
  | _ => false
  end.


(** The queue holds exactly the pushed messages that were not shifted yet,
    and a drain is armed only over a non-empty queue. *)
Definition consistent (s : Server) : Prop :=
  pushed s = shifted s ++ queue s ∧ (timer s = true → queue s ≠ []).

End MessageQueue.

(** ** The claims' vocabulary *)

(** Fixes in text order: by start of the edit range. *)
Definition byStart (a b : AutoFix) : Prop := (range0 a ≤ range0 b)%Z.

(** [a] ends before [b] starts, and does not start after it. *)
Definition apart (a b : AutoFix) : Prop :=
  (range0 a ≤ range0 b)%Z ∧ ¬ (range1 a > range0 b)%Z.

(** One running accumulator of the bulk actions, in the words of the
    specification: a fix is accepted when the accumulator takes its rule and
    it does not overlap the last fix accepted into this accumulator. *)
Fixpoint accumulate (takes : AutoFix → bool) (accepted : list AutoFix)
    (sorted : list AutoFix) : list AutoFix :=
  match sorted with
  | [] => accepted
  | f :: sorted =>
      accumulate takes
        (if takes f && negb (Fixes.overlaps (last accepted) f)
         then accepted ++ [f] else accepted)
        sorted
  end.

Definition ofRule (rule : string) (f : AutoFix) : bool :=
  bool_decide (ruleId f = rule).

(** The number of pairs [a], [b] of a list, [a] before [b], that overlap. *)
Fixpoint overlapPairs (l : list AutoFix) : nat :=
  match l with
  | [] => 0
  | a :: l => length (filter (λ b, Fixes.overlaps (Some a) b) l) + overlapPairs l
  end.

(** [createTextEdit] for a document that is open. *)
Definition textEditOf (textDocument : TextDocument.t) (editInfo : AutoFix) : TextEdit.t :=
  TextEdit.mk
    (Range.mk (TextDocument.positionAt textDocument (range0 editInfo))
              (TextDocument.positionAt textDocument (range1 editInfo)))
    (text (edit editInfo)).

(** ** The validate notification of the server *)

(** A [TextDocument] is one object that the document manager updates in
    place; a queued validate notification holds that same object as its
    [params].  The world of the scenario is the version each live document
    object has, and [params] is the uri that names the object. *)
Definition Documents : Type := gmap string Z.

Definition validateType : string := "eslint/validate".

(** [(document) => { validateSingle(document, true); }]: the call returns a
    promise at once; nothing of the world changes before it returns. *)
Definition validateHandler : @NotificationHandler string Documents :=
  λ document w, (w, [], Returned ()).

(** [(document): number => { return document.version }] *)
Definition validateVersion : @VersionProvider string Documents :=
  λ document w, Returned (w !! document).

Definition neverCancelled : Documents → nat → bool := λ _ _, false.

(** [messageQueue.onNotification(ValidateNotification.type, ...)] on a new
    queue. *)
Definition validateServer (w : Documents) : @Server string unit Documents :=
  onNotification validateType validateHandler (Some validateVersion) (newServer w).

(** Scenario 3: version 1 of a document is queued for validation, the
    document changes to version 2 and is queued again, all before the first
    tick. *)
Definition scenario3 : list (@Event string unit Documents) :=
  [ AddNotification validateType "file:///a.js" 1;
    Outside (λ w, <["file:///a.js" := 2%Z]> w);
    AddNotification validateType "file:///a.js" 2 ].

Definition scenario3Server : @Server string unit Documents :=
  run neverCancelled scenario3 (validateServer {["file:///a.js" := 1%Z]}).

(** Two documents are queued for validation and the first tick has run: the
    notification of the first document is handled, that of the second is at
    the head of the queue, and the drain is armed again. *)
Definition fifoEvents : list (@Event string unit Documents) :=
  [ AddNotification validateType "file:///a.js" 1;
    AddNotification validateType "file:///b.js" 1;
    Tick ].

Definition fifoServer : @Server string unit Documents :=
  run neverCancelled fifoEvents
    (validateServer {["file:///a.js" := 1%Z; "file:///b.js" := 1%Z]}).

(** ** A request registered with a version provider *)

Definition codeActionType : string := "textDocument/codeAction".

(** The version provider of the code-action registration, on the uri of the
    request: [document ? document.version : undefined]. *)
Definition codeActionVersion : @VersionProvider string Documents :=
  λ uri w, Returned (w !! uri).

(** A request handler that answers at once. *)
Definition answering : @RequestHandler string unit Documents :=
  λ _ _ w, (w, [], Returned (Value ())).

Definition codeActionServer (w : Documents) : @Server string unit Documents :=
  registerRequest codeActionType answering (Some codeActionVersion) (newServer w).

(** The token named 7 is signaled, no other is. *)
Definition cancelled7 : Documents → nat → bool := λ _ token, bool_decide (token = 7).

Definition exampleUri : string := "file:///a.js".

Definition requestMessage (version : option Z) (token0 : nat) : @Message string :=
  mkMessage codeActionType exampleUri version (Some 1) (Some 1) (Some token0).

(** A code-action request is stamped with version 3 of the document; the
    document is at version 4 when the request is dispatched. *)
Definition staleRequestServer : @Server string unit Documents :=
  run neverCancelled
    [ RequestArrives codeActionType exampleUri 1 1;
      Outside (λ w, <[exampleUri := 4%Z]> w) ]
    (codeActionServer {[exampleUri := 3%Z]}).

(** A code-action request arrives for a document that is not open, so that
    the message carries no snapshot; the document opens at version 1 before
    the request is dispatched. *)
Definition unstampedRequestServer : @Server string unit Documents :=
  run neverCancelled
    [ RequestArrives codeActionType exampleUri 1 1;
      Outside (λ w, <[exampleUri := 1%Z]> w) ]
    (codeActionServer ∅).

(** A code-action request with the signaled token 7; the document stays at
    version 3. *)
Definition cancelledRequestServer : @Server string unit Documents :=
  run cancelled7
    [ RequestArrives codeActionType exampleUri 7 1 ]
    (codeActionServer {[exampleUri := 3%Z]}).

(** ** What a validation pass leaves in the store *)

(** The entry of the document after one more finding of the report. *)
Definition recordInto (document : TextDocument.t) (entry : option (OMap.t AutoFix))
    (problem : option ESLintProblem.t) : option (OMap.t AutoFix) :=
  match problem ≫= λ problem, pair problem <$> autoFixOf document problem with
  | Some (problem, autoFix) =>
      Some (OMap.set (computeKey (makeDiagnostic problem)) autoFix (default [] entry))
  | None => entry
  end.

(** The entry of the document after a pass over the findings, starting with
    no entry. *)
Definition recorded (document : TextDocument.t) (findings : list (option ESLintProblem.t))
    : option (OMap.t AutoFix) :=
  foldl (recordInto document) None findings.

(** The findings [validate] looks at: the messages of the first result. *)
Definition findingsOf (report : ESLintReport) : list (option ESLintProblem.t) :=
  match results report with
  | docReport :: _ => messages docReport
  | [] => []
  end.

(** ** Data of the examples *)

Definition exampleDocument : TextDocument.t :=
  TextDocument.mk "file:///a.js" 4 (λ offset, Position.mk 0 offset).

Definition exampleProblem (rule : string) (column : Z) (s e : Z) : ESLintProblem.t :=
  ESLintProblem.mk 1 column None None 2 (Defined rule) "problem"
    (Some (mkEdit (s, e) "")).

(** Five findings of the rule [semi], of which the second and the third
    overlap, and one finding of another rule. *)
Definition exampleProblems : list ESLintProblem.t :=
  [ exampleProblem "semi" 21 20 24;
    exampleProblem "semi" 1 0 5;
    exampleProblem "quotes" 3 2 3;
    exampleProblem "semi" 11 10 12;
    exampleProblem "semi" 5 4 8;
    exampleProblem "semi" 31 30 31 ].

Definition exampleReport : ESLintReport :=
  mkReport [mkDocReport (Some <$> exampleProblems)].

(** The store after validating the example document. *)
Definition exampleStore : CodeActions :=
  match validate exampleDocument true true (Reports exampleReport) ∅ with
  | Validated codeActions _ => codeActions
  | ValidateThrew codeActions => codeActions
  end.

Definition exampleEdits : OMap.t AutoFix := default [] (exampleStore !! "file:///a.js").

Definition exampleParams : CodeActionParams :=
  mkCodeActionParams "file:///a.js" [makeDiagnostic (exampleProblem "semi" 11 10 12)].

(** ** Further functions of the server *)

(** A JavaScript string as its sequence of UTF-16 code units;
    [path.charCodeAt(i)] is [NaN] out of range, which is [None]. *)
Definition charCodeAt (path : list Z) (i : nat) : option Z := path !! i.

(** [CharCode.Backslash] *)
Definition Backslash : Z := 92.

(** The loop of [isUNC]: from position [pos], whose code units are [rest],
    advance to the first backslash or to the end of the path. *)
Fixpoint hostEnd (rest : list Z) (pos : nat) : nat :=
  match rest with
  | [] => pos
  | code :: rest =>
      if bool_decide (code = Backslash) then pos else hostEnd rest (S pos)
  end.

(** [isUNC(path)], with [process.platform] as an argument. *)
Definition isUNC (platform : string) (path : list Z) : bool :=
  if bool_decide (platform ≠ "win32") then false
  else if bool_decide (path = []) || bool_decide (length path < 5) then false
  else if bool_decide (charCodeAt path 0 ≠ Some Backslash) then false
  else if bool_decide (charCodeAt path 1 ≠ Some Backslash) then false
  else
    let start := 2 in
    let pos := hostEnd (drop 2 path) 2 in
    if bool_decide (start = pos) then false
    else
      match charCodeAt path (pos + 1) with
      | None => false
      | Some code => if bool_decide (code = Backslash) then false else true
      end.

(** [getFixes(textDocument)], the edits handed out when a document is about
    to be saved; [inl] is the error [getDocumentVersion] throws. *)
Definition getFixes (textDocument : TextDocument.t) (codeActions : CodeActions)
    : string + list TextEdit.t :=
  let uri := TextDocument.uri textDocument in
  match codeActions !! uri with
  | Some edits =>
      if Fixes.isEmpty edits then inr []
      else
        match Fixes.getDocumentVersion edits with
        | inl error => inl error
        | inr version =>
            if bool_decide (TextDocument.version textDocument ≠ version) then inr []
            else inr (textEditOf textDocument <$> Fixes.getOverlapFree edits)
        end
  | None => inr []
  end.

(** The listener of [documents.onDidClose], once the settings of the
    document are known: the entry of the document is deleted, and the
    diagnostics of the document are cleared if it was validated. *)
Definition onDidClose (uri : string) (validateSetting : bool) (codeActions : CodeActions)
    : CodeActions * option (string * list Diagnostic.t) :=
  (delete uri codeActions, if validateSetting then Some (uri, []) else None).

(** A string without the two characters that delimit the numbers of a key. *)
Fixpoint undelimited (s : string) : Prop :=
  match s with
  | EmptyString => True
  | String c s => c ≠ ","%char ∧ c ≠ "]"%char ∧ undelimited s
  end.

(** The effects that answer, or promise to answer, the caller [sink]. *)
Definition answers {P R : Type} (sink : nat) (e : @Effect P R) : bool :=
  match e with
  | Rejects s _ | Resolves s _ | Awaits _ s => bool_decide (s = sink)
  | _ => false
  end.

(** ** Further data of the examples *)

(** The version provider of the execute-command registration, as the queue
    calls it: it reads the parameters only. *)
Definition executeCommandProvider : @VersionProvider ExecuteCommandParams Documents :=
  λ params _, executeCommandVersion params.

(** Two notifications of a method registered without a version provider. *)
Definition plainType : string := "plain/notification".

Definition plainServer : @Server string unit Documents :=
  run neverCancelled
    [ NotificationArrives plainType "first"; NotificationArrives plainType "second" ]
    (registerNotification plainType validateHandler None (newServer ∅)).

Definition plainMessage (params : string) : @Message string :=
  mkMessage plainType params None None None None.

(** A notification added for a method that no handler is registered for. *)
Definition orphanServer : @Server string unit Documents :=
  run neverCancelled [ AddNotification "orphan/notification" exampleUri 1 ] (newServer ∅).

(** A request handler that throws at once, as the code-action handler does
    when a diagnostic has a recorded fix and the document is not open; two
    requests for it have arrived. *)
Definition throwing : @RequestHandler string unit Documents :=
  λ _ _ w, (w, [], Thrown).

Definition throwingServer : @Server string unit Documents :=
  run neverCancelled
    [ RequestArrives codeActionType exampleUri 1 1;
      RequestArrives codeActionType exampleUri 2 2 ]
    (registerRequest codeActionType throwing (Some codeActionVersion)
       (newServer {[exampleUri := 3%Z]})).

(** Two fixes that do not overlap. *)
Definition apartEdits : OMap.t AutoFix :=
  snapshotOf [("kC", fixAt "r" 8 10); ("kA", fixAt "r" 0 5)].

(** The path [\\host\share] and its code units. *)
Definition uncPath : list Z := [92; 92; 104; 111; 115; 116; 92; 115; 104; 97; 114; 101]%Z.

(** * Properties of the [Fixes] class *)

Lemma inOrder_byStart a b : Fixes.inOrder a b → byStart a b.
Proof.
  unfold Fixes.inOrder, Fixes.compareFixes, byStart; cbv zeta.
  repeat case_bool_decide; lia.
Qed.

Lemma inOrder_ties a b :
  Fixes.inOrder a b → range0 a = range0 b →
  (range1 a = 0 ∨ (range1 b ≠ 0 ∧ range1 a ≤ range1 b))%Z.
Proof.
  unfold Fixes.inOrder, Fixes.compareFixes; cbv zeta.
  repeat case_bool_decide; lia.
Qed.

Global Instance inOrder_transitive : Transitive Fixes.inOrder.
Proof.
  intros a b c. unfold Fixes.inOrder, Fixes.compareFixes; cbv zeta.
  repeat case_bool_decide; lia.
Qed.

Global Instance inOrder_total : Total Fixes.inOrder.
Proof.
  intros a b. unfold Fixes.inOrder, Fixes.compareFixes; cbv zeta.
  repeat case_bool_decide; lia.
Qed.

Lemma StronglySorted_lookup {A} (R : relation A) (l : list A) i j a b :
  StronglySorted R l → i < j → l !! i = Some a → l !! j = Some b → R a b.
Proof.
  intros Hl. revert i j. induction Hl as [|x l Hl IH Hx]; intros i j Hij Hi Hj.
  - by rewrite lookup_nil in Hi.
  - destruct j as [|j]; [lia|]. destruct i as [|i]; simpl in *.
    + injection Hi as ->. rewrite Forall_forall in Hx. apply Hx.
      apply list_elem_of_lookup. eauto.
    + apply (IH i j); [lia|done..].
Qed.

Lemma StronglySorted_weaken {A} (R S : relation A) (l : list A) :
  (∀ a b, R a b → S a b) → StronglySorted R l → StronglySorted S l.
Proof.
  intros HRS. induction 1 as [|x l Hl IH Hx]; constructor; [done|].
  eapply Forall_impl; eauto.
Qed.

Lemma compareFixes_swap a b : (Fixes.compareFixes a b > 0)%Z → Fixes.inOrder b a.
Proof.
  unfold Fixes.inOrder, Fixes.compareFixes; cbv zeta.
  repeat case_bool_decide; lia.
Qed.

Lemma insert_perm element sorted : Fixes.insert element sorted ≡ₚ element :: sorted.
Proof.
  induction sorted as [|next sorted IH]; simpl; [done|].
  case_bool_decide; [|done]. rewrite IH. apply Permutation_swap.
Qed.

Lemma insert_sorted element sorted :
  StronglySorted Fixes.inOrder sorted →
  StronglySorted Fixes.inOrder (Fixes.insert element sorted).
Proof.
  induction 1 as [|next sorted Hsorted IH Hnext]; simpl.
  - by repeat constructor.
  - case_bool_decide as Hswap.
    + constructor; [done|]. rewrite insert_perm.
      constructor; [by apply compareFixes_swap|done].
    + assert (Fixes.inOrder element next) as Hfirst.
      { unfold Fixes.inOrder. lia. }
      constructor; [by constructor|]. constructor; [done|].
      eapply Forall_impl; [exact Hnext|]. intros later Hlater. by transitivity next.
Qed.

Lemma sort_perm l : Fixes.sort l ≡ₚ l.
Proof.
  induction l as [|element l IH]; simpl; [done|].
  by rewrite insert_perm, IH.
Qed.

Lemma sort_sorted l : StronglySorted Fixes.inOrder (Fixes.sort l).
Proof.
  induction l as [|element l IH]; simpl; [constructor|by apply insert_sorted].
Qed.

Lemma getAllSorted_sorted edits : StronglySorted Fixes.inOrder (Fixes.getAllSorted edits).
Proof. apply sort_sorted. Qed.

Lemma getAllSorted_byStart edits : StronglySorted byStart (Fixes.getAllSorted edits).
Proof.
  eapply StronglySorted_weaken; [apply inOrder_byStart | apply getAllSorted_sorted].
Qed.

Lemma getAllSorted_perm edits : Fixes.getAllSorted edits ≡ₚ OMap.values edits.
Proof. apply sort_perm. Qed.

Lemma overlaps_Some last c :
  negb (Fixes.overlaps (Some last) c) = bool_decide (range1 last ≤ range0 c)%Z.
Proof. simpl. repeat case_bool_decide; simpl; try done; lia. Qed.

Lemma overlapFree_loop rest result last :
  fst (foldl (λ '(result, last) current,
                if negb (Fixes.overlaps (Some last) current)
                then (result ++ [current], current)
                else (result, last))
             (result, last) rest)
  = result ++ keepAfter last rest.
Proof.
  revert result last. induction rest as [|c cs IH]; intros result last.
  - simpl. by rewrite app_nil_r.
  - cbn [foldl keepAfter]. rewrite overlaps_Some.
    case_bool_decide; rewrite IH; [by rewrite <- app_assoc | done].
Qed.

Lemma getOverlapFree_greedy edits :
  Fixes.getOverlapFree edits = greedyScan (Fixes.getAllSorted edits).
Proof.
  unfold Fixes.getOverlapFree. cbv zeta.
  destruct (Fixes.getAllSorted edits) as [|first [|second rest]];
    [done..|].
  rewrite bool_decide_eq_false_2 by (simpl; lia).
  by rewrite overlapFree_loop.
Qed.

Lemma keepAfter_elem last l x : x ∈ keepAfter last l → x ∈ l.
Proof.
  revert last. induction l as [|c cs IH]; intros last; simpl; [done|].
  case_bool_decide; rewrite ?elem_of_cons; naive_solver.
Qed.

Lemma keepAfter_apart l last :
  StronglySorted byStart (last :: l) → StronglySorted apart (last :: keepAfter last l).
Proof.
  revert last. induction l as [|c cs IH]; intros last Hs; simpl.
  - repeat constructor.
  - apply StronglySorted_inv in Hs as [Hcs Hlast].
    apply Forall_cons in Hlast as [Hlc Hlast].
    pose proof Hcs as Hcs'. apply StronglySorted_inv in Hcs' as [Hcs' Hc].
    case_bool_decide as Hle.
    + constructor; [by apply IH|].
      constructor; [split; [done|lia]|].
      rewrite Forall_forall in Hc, Hlast |- *. intros x Hx%keepAfter_elem.
      specialize (Hc x Hx). specialize (Hlast x Hx). unfold byStart, apart in *.
      split; lia.
    + apply IH. by constructor.
Qed.

Lemma greedyScan_apart l :
  StronglySorted byStart l → StronglySorted apart (greedyScan l).
Proof. destruct l; [constructor | apply keepAfter_apart]. Qed.

(** C1. [getOverlapFree] is the greedy scan of [getAllSorted] that the
    specification describes (keep the first fix, then keep a candidate and
    make it the new last exactly when the last kept fix ends at or before
    the candidate's start), and of any two fixes [a] before [b] in its
    output [a] starts no later than [b] and [a.range.end > b.range.start]
    does not hold. *)
Theorem getOverlapFree_sorted_and_overlap_free (edits : OMap.t AutoFix) :
  Fixes.getOverlapFree edits = greedyScan (Fixes.getAllSorted edits)
  ∧ ∀ i j a b,
      i < j →
      Fixes.getOverlapFree edits !! i = Some a →
      Fixes.getOverlapFree edits !! j = Some b →
      (range0 a ≤ range0 b)%Z ∧ ¬ (range1 a > range0 b)%Z.
Proof.
  split; [apply getOverlapFree_greedy|].
  intros i j a b Hij Hi Hj. rewrite getOverlapFree_greedy in Hi, Hj.
  exact (StronglySorted_lookup apart _ i j a b
           (greedyScan_apart _ (getAllSorted_byStart edits)) Hij Hi Hj).
Qed.

(** C7. [getAllSorted] returns all fixes of the snapshot; of any two fixes
    [a] before [b] in its output [a] starts no later than [b], and when they
    start together either [a] ends at offset 0, or neither ends at offset 0
    and [a] ends no later than [b]. *)
Theorem getAllSorted_order (edits : OMap.t AutoFix) :
  Fixes.getAllSorted edits ≡ₚ OMap.values edits
  ∧ ∀ i j a b,
      i < j →
      Fixes.getAllSorted edits !! i = Some a →
      Fixes.getAllSorted edits !! j = Some b →
      (range0 a ≤ range0 b)%Z
      ∧ (range0 a = range0 b →
         range1 a = 0 ∨ (range1 b ≠ 0 ∧ range1 a ≤ range1 b))%Z.
Proof.
  split; [apply getAllSorted_perm|].
  intros i j a b Hij Hi Hj.
  pose proof (StronglySorted_lookup _ _ i j a b (getAllSorted_sorted edits) Hij Hi Hj)
    as Hab.
  split; [by apply inOrder_byStart | by apply inOrder_ties].
Qed.

(** * Properties of the bulk batches *)

Lemma getLastEdit_last array : getLastEdit array = last array.
Proof.
  unfold getLastEdit. cbv zeta. case_bool_decide as Hlen.
  - by destruct array.
  - rewrite last_lookup. f_equal. lia.
Qed.

Lemma batches_accumulate rule sorted version same all :
  (foldl (batchStep (Some rule)) (version, same, all) sorted).1.2
    = accumulate (ofRule rule) same sorted
  ∧ (foldl (batchStep (Some rule)) (version, same, all) sorted).2
    = accumulate (λ _, true) all sorted.
Proof.
  revert version same all.
  induction sorted as [|f sorted IH]; intros version same all; [done|].
  cbn [foldl accumulate]. unfold batchStep at 2 4. rewrite !getLastEdit_last.
  replace (bool_decide (Some (ruleId f) = Some rule)) with (ofRule rule f)
    by (unfold ofRule; apply bool_decide_ext; naive_solver).
  apply IH.
Qed.

Lemma accumulate_filter takes accepted sorted :
  accumulate takes accepted sorted
  = accumulate (λ _, true) accepted (filter (λ f, takes f) sorted).
Proof.
  revert accepted. induction sorted as [|f sorted IH]; intros accepted; [done|].
  rewrite filter_cons. cbn [accumulate].
  destruct (decide (takes f)) as [Hf|Hf]; destruct (takes f); try done;
    cbn [accumulate andb]; apply IH.
Qed.

Lemma accumulate_keepAfter accepted last0 sorted :
  accumulate (λ _, true) (accepted ++ [last0]) sorted
  = accepted ++ last0 :: keepAfter last0 sorted.
Proof.
  revert accepted last0. induction sorted as [|c cs IH]; intros accepted last0; [done|].
  cbn [accumulate keepAfter]. rewrite last_snoc, overlaps_Some. simpl.
  case_bool_decide.
  - rewrite IH. by rewrite <- app_assoc.
  - apply IH.
Qed.

Lemma accumulate_greedy sorted : accumulate (λ _, true) [] sorted = greedyScan sorted.
Proof. destruct sorted as [|f sorted]; [done|]. apply (accumulate_keepAfter []). Qed.

Lemma StronglySorted_filter_bool {A} (R : relation A) (p : A → bool) l :
  StronglySorted R l → StronglySorted R (filter (λ x, p x) l).
Proof.
  induction 1 as [|x l Hl IH Hx]; [constructor|].
  rewrite filter_cons. destruct (decide (p x)); [|done].
  constructor; [done|]. rewrite Forall_forall in Hx |- *.
  intros y [_ Hy]%list_elem_of_filter. by apply Hx.
Qed.

Lemma overlaps_filter_nil x c cs :
  Fixes.overlaps (Some x) c = false → Forall (byStart c) cs →
  filter (λ b, Fixes.overlaps (Some x) b) cs = [].
Proof.
  intros Hov Hc. induction Hc as [|z cs Hz Hc IH]; [done|].
  rewrite filter_cons, IH.
  destruct (decide _) as [Hxz|]; [|done].
  simpl in Hov, Hxz. unfold byStart in Hz.
  apply bool_decide_eq_false in Hov. apply bool_decide_unpack in Hxz. lia.
Qed.

Lemma overlapPairs_none x l : overlapPairs (x :: l) = 0 → keepAfter x l = l.
Proof.
  revert x. induction l as [|c cs IH]; intros x Hp; [done|].
  cbn [overlapPairs] in Hp. rewrite filter_cons in Hp.
  cbn [keepAfter]. rewrite <- overlaps_Some.
  destruct (decide _) as [Hov|Hov] in Hp; [cbn [length] in Hp; lia|].
  destruct (Fixes.overlaps (Some x) c); [done|].
  cbn [negb]. f_equal. apply IH. cbn [overlapPairs]. lia.
Qed.

Lemma overlapPairs_one x l :
  StronglySorted byStart (x :: l) → overlapPairs (x :: l) = 1 →
  S (length (keepAfter x l)) = length l.
Proof.
  revert x. induction l as [|c cs IH]; intros x Hs Hp; [simpl in Hp; lia|].
  apply StronglySorted_inv in Hs as [Hcs Hx].
  apply Forall_cons in Hx as [Hxc Hx].
  cbn [overlapPairs] in Hp. rewrite filter_cons in Hp.
  cbn [keepAfter]. rewrite <- overlaps_Some.
  destruct (decide _) as [Hov|Hov] in Hp.
  - destruct (Fixes.overlaps (Some x) c); [|done].
    cbn [length negb] in Hp |- *.
    rewrite overlapPairs_none; [done|]. cbn [overlapPairs]. lia.
  - destruct (Fixes.overlaps (Some x) c) eqn:Hxc'; [done|].
    apply StronglySorted_inv in Hcs as [Hcs Hc].
    rewrite (overlaps_filter_nil x c cs Hxc' Hc) in Hp.
    cbn [length negb]. f_equal. apply IH; [by constructor|].
    cbn [overlapPairs length] in Hp |- *. lia.
Qed.

Lemma apart_overlapPairs l : StronglySorted apart l → overlapPairs l = 0.
Proof.
  induction 1 as [|x l Hl IH Hx]; [done|].
  cbn [overlapPairs]. rewrite IH.
  replace (filter (λ b, Fixes.overlaps (Some x) b) l) with (@nil AutoFix); [done|].
  clear Hl IH. induction Hx as [|z l [_ Hz] Hx IHx]; [done|].
  rewrite filter_cons, <- IHx.
  destruct (decide _) as [Hxz|]; [|done].
  simpl in Hxz. apply bool_decide_unpack in Hxz. lia.
Qed.

Lemma createTextEdit_open doc l :
  mapM (createTextEdit (Some doc)) l = Some (textEditOf doc <$> l).
Proof. induction l as [|f l IH]; [done|]. simpl. by rewrite IH. Qed.

Lemma getScoped_empty diagnostics : Fixes.getScoped [] diagnostics = [].
Proof.
  unfold Fixes.getScoped. induction diagnostics as [|d ds IH]; [done|]. exact IH.
Qed.

Lemma scoped_loop uri doc l version rule commands result :
  ∃ commands',
    foldl (scopedStep uri (Some doc)) (Some (version, rule, commands, result)) l
    = Some (from_option documentVersion version (last l),
            from_option (λ f, Some (ruleId f)) rule (last l),
            commands',
            result ++ ((λ f, mkCommand (label f) CommandIds.applySingleFix) <$> l))
    ∧ commands' !! CommandIds.applySameFixes = commands !! CommandIds.applySameFixes
    ∧ commands' !! CommandIds.applyAllFixes = commands !! CommandIds.applyAllFixes.
Proof.
  revert version rule commands result.
  induction l as [|f l IH]; intros version rule commands result.
  - exists commands. simpl. by rewrite app_nil_r.
  - cbn [foldl]. unfold scopedStep at 2. simpl.
    edestruct IH as (commands' & -> & Hsame & Hall).
    exists commands'. rewrite last_cons. destruct (last l); simpl.
    + rewrite <- app_assoc. by rewrite Hsame, Hall, !lookup_insert_ne.
    + rewrite <- app_assoc. by rewrite Hsame, Hall, !lookup_insert_ne.
Qed.

Lemma bulkCommand_open uri doc version batch title0 id commands result :
  ∃ commands' result',
    bulkCommand uri (Some doc) version batch title0 id (commands, result)
    = Some (commands', result')
    ∧ commands' !! id
      = (if bool_decide (1 < length batch)
         then Some (mkWorkspaceChange (VersionedTextDocumentIdentifier.mk uri version)
                                      (textEditOf doc <$> batch))
         else commands !! id)
    ∧ ∀ id', id' ≠ id → commands' !! id' = commands !! id'.
Proof.
  unfold bulkCommand. case_bool_decide.
  - rewrite createTextEdit_open. simpl. eexists _, _. split; [done|].
    split; [by rewrite lookup_insert_eq|]. intros. by rewrite lookup_insert_ne.
  - eexists _, _. done.
Qed.

(** C6. The loop of the code-action handler over [getAllSorted()] keeps two
    independent accumulators: the same-rule batch accepts a fix exactly when
    it has the triggering rule and does not overlap the last fix accepted
    into the same-rule batch, the all-rule batch accepts a fix exactly when
    it does not overlap the last fix accepted into the all-rule batch.  When
    the request finds a scoped fix (for an open document), the triggering
    rule is that of the last scoped fix and the commands [applySameFixes]
    and [applyAllFixes] are prepared from these two batches when they hold
    more than one fix.  When the snapshot holds five fixes of the rule of
    which exactly one pair overlaps, the same-rule batch holds four fixes,
    none overlapping. *)
Theorem bulk_batches_two_accumulators (edits : OMap.t AutoFix) (rule : string) :
  let sorted := Fixes.getAllSorted edits in
  let same := accumulate (ofRule rule) [] sorted in
  let all := accumulate (λ _, true) [] sorted in
  (∀ version,
      (batches (Some rule) version sorted).1.2 = same
      ∧ (batches (Some rule) version sorted).2 = all)
  ∧ (∀ (documents : gmap string TextDocument.t) (codeActions : CodeActions)
       (params : CodeActionParams) (doc : TextDocument.t) (f : AutoFix),
       codeActions !! ca_uri params = Some edits →
       documents !! ca_uri params = Some doc →
       last (Fixes.getScoped edits (ca_diagnostics params)) = Some f →
       ruleId f = rule →
       ∃ commands result version,
         codeActionHandler documents codeActions params = Some (commands, result)
         ∧ commands !! CommandIds.applySameFixes
           = (if bool_decide (1 < length same)
              then Some (mkWorkspaceChange
                           (VersionedTextDocumentIdentifier.mk (ca_uri params) version)
                           (textEditOf doc <$> same))
              else None)
         ∧ commands !! CommandIds.applyAllFixes
           = (if bool_decide (1 < length all)
              then Some (mkWorkspaceChange
                           (VersionedTextDocumentIdentifier.mk (ca_uri params) version)
                           (textEditOf doc <$> all))
              else None))
  ∧ (length (filter (λ x, ofRule rule x) sorted) = 5 →
     overlapPairs (filter (λ x, ofRule rule x) sorted) = 1 →
     length same = 4 ∧ overlapPairs same = 0).
Proof.
  intros sorted same all. split; [|split].
  - intros version. apply batches_accumulate.
  - intros documents codeActions params doc f Hedits Hdoc Hscoped <-.
    unfold codeActionHandler. cbv zeta. rewrite Hedits, Hdoc.
    assert (Fixes.isEmpty edits = false) as ->.
    { destruct edits; [by rewrite getScoped_empty in Hscoped|done]. }
    destruct (scoped_loop (ca_uri params) doc
                (Fixes.getScoped edits (ca_diagnostics params))
                (-1)%Z None ∅ []) as (commands & -> & Hsame & Hall).
    rewrite Hscoped. cbn [from_option mbind option_bind app].
    rewrite bool_decide_eq_true_2; last first.
    { rewrite length_fmap. apply last_Some in Hscoped as [l' ->].
      rewrite length_app. simpl. lia. }
    pose proof (batches_accumulate (ruleId f) (Fixes.getAllSorted edits)
                  (documentVersion f) [] []) as [Hb1 Hb2].
    unfold batches.
    destruct (foldl _ _ (Fixes.getAllSorted edits)) as [[version same'] all'].
    simpl in Hb1, Hb2. subst same' all'. fold sorted same all.
    match goal with
    | |- context [bulkCommand ?u (Some ?d) ?v ?b ?t ?i (?c, ?r)] =>
        destruct (bulkCommand_open u d v b t i c r)
          as (commands1 & result1 & -> & Hs1 & Ho1)
    end.
    cbn [mbind option_bind].
    match goal with
    | |- context [bulkCommand ?u (Some ?d) ?v ?b ?t ?i (?c, ?r)] =>
        destruct (bulkCommand_open u d v b t i c r)
          as (commands2 & result2 & -> & Hs2 & Ho2)
    end.
    exists commands2, result2, version. split; [done|]. split.
    + rewrite Ho2 by done. rewrite Hs1, Hsame. by rewrite lookup_empty.
    + rewrite Hs2, Ho1 by done. rewrite Hall. by rewrite lookup_empty.
  - intros Hlen Hpairs. subst same. rewrite accumulate_filter, accumulate_greedy.
    pose proof (StronglySorted_filter_bool byStart (ofRule rule) sorted
                  (getAllSorted_byStart edits)) as Hsorted.
    split; [|by apply apart_overlapPairs, greedyScan_apart].
    destruct (filter _ sorted) as [|x l]; [done|].
    pose proof (overlapPairs_one x l Hsorted Hpairs). simpl in *. lia.
Qed.

(** * Properties of the message queue *)

Section MessageQueueProperties.

Context {P R World : Type}.
Variable isCancellationRequested : World → nat → bool.


Lemma Request_is_true (message : @Message P) :
  Request_is message = true ↔
  ∃ token0 resolve0 reject0,
    token message = Some token0 ∧ resolve message = Some resolve0
    ∧ reject message = Some reject0.
Proof.
  unfold Request_is. rewrite !andb_true_iff, !bool_decide_eq_true.
  unfold is_Some. naive_solver.
Qed.

Lemma Request_is_fields (message : @Message P) token0 resolve0 reject0 :
  token message = Some token0 → resolve message = Some resolve0 →
  reject message = Some reject0 → Request_is message = true.
Proof. intros Ht Hr Hj. apply Request_is_true. eauto 6. Qed.

Lemma trigger_fields (s : @Server P R World) :
  queue (trigger s) = queue s ∧ world (trigger s) = world s
  ∧ effects (trigger s) = effects s ∧ pushed (trigger s) = pushed s
  ∧ shifted (trigger s) = shifted s
  ∧ requestHandlers (trigger s) = requestHandlers s
  ∧ notificationHandlers (trigger s) = notificationHandlers s.
Proof. unfold trigger. by destruct (_ || _). Qed.

Lemma trigger_armed (s : @Server P R World) :
  (timer s = true → queue s ≠ []) →
  timer (trigger s) = true → queue (trigger s) ≠ [].
Proof.
  unfold trigger. destruct (timer s) eqn:Ht; simpl; [by rewrite Ht|].
  case_bool_decide as Hq; simpl; [by rewrite Ht|].
  intros _ _ Hnil. by rewrite Hnil in Hq.
Qed.

Lemma addNotificationMessage_fields type params version (s : @Server P R World) :
  let s' := addNotificationMessage type params version s in
  queue s' = queue s ++ [addedMessage (type, params, version)]
  ∧ pushed s' = pushed s ++ [addedMessage (type, params, version)]
  ∧ world s' = world s ∧ effects s' = effects s ∧ shifted s' = shifted s
  ∧ (timer s' = true → queue s' ≠ []).
Proof.
  unfold addNotificationMessage. cbv zeta.
  destruct (trigger_fields (push (mkMessage type params (Some version) None None None) s))
    as (-> & -> & -> & -> & -> & _).
  repeat split; try done. intros _. simpl. by destruct (queue s).
Qed.

Lemma addAll_fields (added : list (@Added P)) (s : @Server P R World) :
  queue (addAll added s) = queue s ++ (addedMessage <$> added)
  ∧ pushed (addAll added s) = pushed s ++ (addedMessage <$> added)
  ∧ world (addAll added s) = world s
  ∧ effects (addAll added s) = effects s
  ∧ shifted (addAll added s) = shifted s
  ∧ ((timer s = true → queue s ≠ []) →
     timer (addAll added s) = true → queue (addAll added s) ≠ []).
Proof.
  revert s. induction added as [|a added IH]; intros s.
  - simpl. by rewrite !app_nil_r.
  - destruct a as [[type params] version].
    change (addAll ((type, params, version) :: added) s)
      with (addAll added (addNotificationMessage type params version s)).
    destruct (IH (addNotificationMessage type params version s))
      as (Hq & Hp & Hw & He & Hs & Harmed).
    destruct (addNotificationMessage_fields type params version s)
      as (Hq' & Hp' & Hw' & He' & Hs' & Ha).
    rewrite Hq, Hp, Hw, He, Hs, Hq', Hp', Hw', He', Hs'.
    cbn [fmap list_fmap]. rewrite <- !app_assoc. repeat split; try done.
    intros _ _. by destruct (queue s).
Qed.

(** What one [processQueue] does to the queue and to the histories. *)
Lemma processQueue_queue (s : @Server P R World) message rest :
  queue s = message :: rest → timer s = false →
  shifted (processQueue isCancellationRequested s) = shifted s ++ [message]
  ∧ (∃ added, queue (processQueue isCancellationRequested s) = rest ++ added
              ∧ pushed (processQueue isCancellationRequested s) = pushed s ++ added)
  ∧ (timer (processQueue isCancellationRequested s) = true →
     queue (processQueue isCancellationRequested s) ≠ []).
Proof.
  intros Hq Ht.
  pose (good := λ s' : @Server P R World,
          shifted s' = shifted s ++ [message]
          ∧ (∃ added, queue s' = rest ++ added ∧ pushed s' = pushed s ++ added)
          ∧ (timer s' = true → queue s' ≠ [])).
  assert (∀ s' : @Server P R World,
            shifted s' = shifted s ++ [message] →
            queue s' = rest → pushed s' = pushed s → timer s' = false →
            good s') as Hquiet.
  { intros s' Hs' Hq' Hp' Ht'. split; [done|]. split; [|by rewrite Ht'].
    exists []. by rewrite !app_nil_r. }
  assert (∀ s' : @Server P R World, good s' → good (trigger s')) as Htrigger.
  { intros s' (Hs' & (added & Hq' & Hp') & Ht').
    destruct (trigger_fields s') as (Hq1 & _ & _ & Hp1 & Hs1 & _).
    unfold good. rewrite Hs1, Hq1, Hp1. split; [done|]. split; [by eexists|].
    intros Harmed. apply trigger_armed in Harmed; [|done]. by rewrite Hq1 in Harmed. }
  assert (∀ (s' : @Server P R World) es, good s' → good (emit s' es)) as Hemit.
  { intros s' es Hgood. exact Hgood. }
  assert (∀ (s' : @Server P R World) added,
            shifted s' = shifted s ++ [message] →
            queue s' = rest → pushed s' = pushed s → timer s' = false →
            good (addAll added s')) as Hadd.
  { intros s' added Hs' Hq' Hp' Ht'.
    destruct (addAll_fields added s') as (Haq & Hap & _ & _ & Has & Harm).
    unfold good. rewrite Has, Haq, Hap, Hs', Hq', Hp'.
    split; [done|]. split; [by eexists|].
    rewrite <- Hq', <- Haq. apply Harm. by rewrite Ht'. }
  enough (good (processQueue isCancellationRequested s)) as Hgood by exact Hgood.
  unfold processQueue. rewrite Hq.
  cbv zeta.
  destruct (Request_is message).
  - destruct (token message) as [token0|], (resolve message) as [resolve0|],
      (reject message) as [reject0|]; try by apply Hquiet.
    destruct (isCancellationRequested _ _); [by apply Hemit, Hquiet|].
    destruct (_ !! _) as [elem|]; [|by apply Hemit, Hquiet].
    destruct (stale _ _ _) as [[|]|]; [by apply Hemit, Hquiet| |by apply Hemit, Hquiet].
    destruct (rq_handler _ _ _ _) as [[w added] [[value|thenable]|]];
      repeat first [apply Htrigger | apply Hemit]; by apply Hadd.
  - destruct (_ !! _) as [elem|]; [|by apply Hemit, Hquiet].
    destruct (stale _ _ _) as [[|]|]; [by apply Hquiet| |by apply Hemit, Hquiet].
    destruct (nt_handler _ _ _) as [[w added] [[]|]];
      repeat first [apply Htrigger | apply Hemit]; by apply Hadd.
Qed.

Lemma push_trigger_consistent (s : @Server P R World) message :
  consistent s → consistent (trigger (push message s)).
Proof.
  intros [Hp Ht].
  destruct (trigger_fields (push message s)) as (Hq1 & _ & _ & Hp1 & Hs1 & _).
  split.
  - rewrite Hp1, Hs1, Hq1. simpl. by rewrite Hp, app_assoc.
  - apply trigger_armed. simpl. intros _. by destruct (queue s).
Qed.

Lemma tick_consistent (s : @Server P R World) :
  consistent s → consistent (tick isCancellationRequested s).
Proof.
  intros [Hp Ht]. unfold tick. destruct (timer s) eqn:Htimer;
    [|split; [done|by rewrite Htimer]].
  destruct (queue s) as [|message rest] eqn:Hq; [by destruct Ht|].
  destruct (processQueue_queue (withTimer s false) message rest)
    as (Hs1 & (added & Hq1 & Hp1) & Ht1); [done..|].
  split; [|done]. rewrite Hp1, Hs1, Hq1. simpl. by rewrite Hp, <- !app_assoc.
Qed.

Lemma step_consistent (s : @Server P R World) e :
  consistent s → consistent (step isCancellationRequested s e).
Proof.
  intros Hs. destruct e; simpl.
  - unfold requestArrives. destruct (_ !! _); [|done].
    destruct (stamp _ _ _); [by apply push_trigger_consistent|done].
  - unfold notificationArrives. destruct (_ !! _); [|done].
    destruct (stamp _ _ _); [by apply push_trigger_consistent|done].
  - by apply push_trigger_consistent.
  - by apply tick_consistent.
  - done.
  - done.
Qed.

Lemma run_consistent (s : @Server P R World) es :
  consistent s → consistent (run isCancellationRequested es s).
Proof.
  revert s. induction es as [|e es IH]; intros s Hs; [done|].
  apply IH. by apply step_consistent.
Qed.

Lemma push_trigger_fields (message : @Message P) (s : @Server P R World) :
  let s' := trigger (push message s) in
  queue s' = queue s ++ [message] ∧ timer s' = true
  ∧ world s' = world s ∧ effects s' = effects s
  ∧ requestHandlers s' = requestHandlers s
  ∧ notificationHandlers s' = notificationHandlers s
  ∧ pushed s' = pushed s ++ [message] ∧ shifted s' = shifted s.
Proof.
  cbv zeta. unfold trigger. cbn [timer queue push].
  destruct (timer s) eqn:Htimer; cbn [orb].
  - done.
  - rewrite bool_decide_eq_false_2; [done|]. rewrite length_app. simpl. lia.
Qed.

Lemma trigger_armed_iff (s : @Server P R World) :
  (timer s = true → queue s ≠ []) →
  timer (trigger s) = true ↔ queue (trigger s) ≠ [].
Proof.
  intros Harmed. unfold trigger. destruct (timer s) eqn:Htimer; cbn [orb].
  - rewrite Htimer. split; [by intros _; apply Harmed|done].
  - case_bool_decide as Hempty.
    + rewrite Htimer. split; [done|]. intros Hne. by destruct (queue s).
    + simpl. split; [|done]. intros _ Hnil. by rewrite Hnil in Hempty.
Qed.

Lemma addAll_timer (added : list (@Added P)) (s : @Server P R World) :
  timer (addAll added s) = timer s || bool_decide (added ≠ []).
Proof.
  revert s. induction added as [|a added IH]; intros s.
  - simpl. by rewrite orb_false_r.
  - destruct a as [[type params] version].
    change (addAll ((type, params, version) :: added) s)
      with (addAll added (addNotificationMessage type params version s)).
    rewrite IH. unfold addNotificationMessage.
    destruct (push_trigger_fields (mkMessage type params (Some version) None None None) s)
      as (_ & -> & _).
    rewrite (bool_decide_eq_true_2 (_ :: _ ≠ [])) by done. by rewrite orb_true_r.
Qed.

(** ** Dispatch of one request or notification *)

Lemma processQueue_cancelled
    (s : @Server P R World) message rest token0 resolve0 reject0 :
  queue s = message :: rest →
  token message = Some token0 → resolve message = Some resolve0 →
  reject message = Some reject0 →
  isCancellationRequested (world s) token0 = true →
  processQueue isCancellationRequested s
  = emit (shift message rest s) [Rejects reject0 cancelled].
Proof.
  intros Hq Ht Hr Hj Hc. unfold processQueue.
  rewrite Hq, (Request_is_fields message token0 resolve0 reject0), Ht, Hr, Hj by done.
  cbn [world shift]. by rewrite Hc.
Qed.


Lemma processQueue_request_provider_throws
    (s : @Server P R World) message rest token0 resolve0 reject0 elem :
  queue s = message :: rest →
  token message = Some token0 → resolve message = Some resolve0 →
  reject message = Some reject0 →
  isCancellationRequested (world s) token0 = false →
  requestHandlers s !! method message = Some elem →
  stale (rq_versionProvider elem) message (world s) = Thrown →
  processQueue isCancellationRequested s = emit (shift message rest s) [ProviderThrows].
Proof.
  intros Hq Ht Hr Hj Hc He Hst. unfold processQueue.
  rewrite Hq, (Request_is_fields message token0 resolve0 reject0), Ht, Hr, Hj by done.
  cbn [world shift requestHandlers]. by rewrite Hc, He, Hst.
Qed.

Lemma processQueue_request_stale
    (s : @Server P R World) message rest token0 resolve0 reject0 elem :
  queue s = message :: rest →
  token message = Some token0 → resolve message = Some resolve0 →
  reject message = Some reject0 →
  requestHandlers s !! method message = Some elem →
  stale (rq_versionProvider elem) message (world s) = Returned true →
  processQueue isCancellationRequested s
  = emit (shift message rest s) [Rejects reject0 cancelled].
Proof.
  intros Hq Ht Hr Hj He Hst. unfold processQueue.
  rewrite Hq, (Request_is_fields message token0 resolve0 reject0), Ht, Hr, Hj by done.
  cbn [world shift requestHandlers]. rewrite He, Hst.
  by destruct (isCancellationRequested _ _).
Qed.

(** The state in which a handler leaves the server: its call is among the
    effects, the world is the one it returns, and what it added is at the
    end of the queue. *)
Lemma processQueue_request_shape
    (s : @Server P R World) message rest token0 resolve0 reject0 elem :
  queue s = message :: rest →
  token message = Some token0 → resolve message = Some resolve0 →
  reject message = Some reject0 →
  isCancellationRequested (world s) token0 = false →
  requestHandlers s !! method message = Some elem →
  stale (rq_versionProvider elem) message (world s) = Returned false →
  let ran := rq_handler elem (params message) token0 (world s) in
  let s' :=
    emit (addAll ran.1.2
            (withWorld
               (emit (shift message rest s)
                  [CallRequestHandler (method message) (params message) token0])
               ran.1.1))
         [answer resolve0 ran.2] in
  processQueue isCancellationRequested s
  = match ran.2 with Returned _ => trigger s' | Thrown => s' end.
Proof.
  intros Hq Ht Hr Hj Hc He Hst. unfold processQueue.
  rewrite Hq, (Request_is_fields message token0 resolve0 reject0), Ht, Hr, Hj by done.
  cbn [world shift requestHandlers emit]. rewrite Hc, He, Hst. cbv zeta.
  destruct (rq_handler elem (params message) token0 (world s))
    as [[w added] [[value|thenable]|]]; done.
Qed.

Lemma processQueue_request_runs
    (s : @Server P R World) message rest token0 resolve0 reject0 elem :
  queue s = message :: rest →
  token message = Some token0 → resolve message = Some resolve0 →
  reject message = Some reject0 →
  isCancellationRequested (world s) token0 = false →
  requestHandlers s !! method message = Some elem →
  stale (rq_versionProvider elem) message (world s) = Returned false →
  let ran := rq_handler elem (params message) token0 (world s) in
  effects (processQueue isCancellationRequested s)
  = effects s ++ [CallRequestHandler (method message) (params message) token0;
                  answer resolve0 ran.2]
  ∧ world (processQueue isCancellationRequested s) = ran.1.1.
Proof.
  intros Hq Ht Hr Hj Hc He Hst ran.
  rewrite (processQueue_request_shape s message rest token0 resolve0 reject0 elem)
    by done.
  fold ran.
  match goal with
  | |- context [addAll ?added ?s'] =>
      destruct (addAll_fields added s') as (_ & _ & Hw & Hef & _)
  end.
  assert (∀ s' : @Server P R World,
            effects (match ran.2 with Returned _ => trigger s' | Thrown => s' end)
            = effects s'
            ∧ world (match ran.2 with Returned _ => trigger s' | Thrown => s' end)
              = world s') as Hend.
  { intros s'. destruct (ran.2); [|done].
    by destruct (trigger_fields s') as (_ & -> & -> & _). }
  match goal with
  | |- context [match ran.2 with Returned _ => trigger ?s' | Thrown => _ end] =>
      destruct (Hend s') as [-> ->]
  end.
  cbn [effects world emit]. rewrite Hw, Hef. cbn [effects world emit withWorld shift].
  by rewrite <- app_assoc.
Qed.



Lemma processQueue_notification_stale (s : @Server P R World) message rest elem :
  queue s = message :: rest → Request_is message = false →
  notificationHandlers s !! method message = Some elem →
  stale (nt_versionProvider elem) message (world s) = Returned true →
  processQueue isCancellationRequested s = shift message rest s.
Proof.
  intros Hq Hn He Hst. unfold processQueue. rewrite Hq, Hn.
  cbn [world shift notificationHandlers]. by rewrite He, Hst.
Qed.

Lemma processQueue_notification_shape (s : @Server P R World) message rest elem :
  queue s = message :: rest → Request_is message = false →
  notificationHandlers s !! method message = Some elem →
  stale (nt_versionProvider elem) message (world s) = Returned false →
  let ran := nt_handler elem (params message) (world s) in
  let s' :=
    addAll ran.1.2
      (withWorld
         (emit (shift message rest s)
            [CallNotificationHandler (method message) (params message)])
         ran.1.1) in
  processQueue isCancellationRequested s
  = match ran.2 with Returned _ => trigger s' | Thrown => emit s' [HandlerThrows] end.
Proof.
  intros Hq Hn He Hst. unfold processQueue. rewrite Hq, Hn.
  cbn [world shift notificationHandlers emit]. rewrite He, Hst. cbv zeta.
  by destruct (nt_handler elem (params message) (world s)) as [[w added] [[]|]].
Qed.

Lemma processQueue_notification_runs (s : @Server P R World) message rest elem :
  queue s = message :: rest → Request_is message = false →
  notificationHandlers s !! method message = Some elem →
  stale (nt_versionProvider elem) message (world s) = Returned false →
  let ran := nt_handler elem (params message) (world s) in
  effects (processQueue isCancellationRequested s)
  = effects s ++ CallNotificationHandler (method message) (params message)
                 :: match ran.2 with Returned _ => [] | Thrown => [HandlerThrows] end
  ∧ world (processQueue isCancellationRequested s) = ran.1.1.
Proof.
  intros Hq Hn He Hst ran.
  rewrite (processQueue_notification_shape s message rest elem) by done.
  fold ran.
  match goal with
  | |- context [addAll ?added ?s'] =>
      destruct (addAll_fields added s') as (_ & _ & Hw & Hef & _)
  end.
  destruct (ran.2).
  - match goal with
    | |- context [trigger ?s'] => destruct (trigger_fields s') as (_ & -> & -> & _)
    end.
    by rewrite Hw, Hef.
  - cbn [effects world emit]. rewrite Hw, Hef. cbn [effects world emit withWorld shift].
    by rewrite <- app_assoc.
Qed.

Lemma newEffects_unfold (s : @Server P R World) :
  newEffects isCancellationRequested s
  = drop (length (effects s)) (effects (processQueue isCancellationRequested s)).
Proof. reflexivity. Qed.

Lemma newEffects_app (s : @Server P R World) es :
  effects (processQueue isCancellationRequested s) = effects s ++ es →
  newEffects isCancellationRequested s = es.
Proof. intros He. by rewrite newEffects_unfold, He, drop_app_length. Qed.

Lemma rejected_unhandled (s : @Server P R World) message rest sink :
  processQueue isCancellationRequested s
  = emit (shift message rest s) [Rejects sink cancelled] →
  effects (processQueue isCancellationRequested s) = effects s ++ [Rejects sink cancelled]
  ∧ calls (newEffects isCancellationRequested s) = 0
  ∧ world (processQueue isCancellationRequested s) = world s.
Proof.
  intros Hp.
  assert (effects (processQueue isCancellationRequested s)
          = effects s ++ [Rejects sink cancelled]) as He by (by rewrite Hp).
  split; [done|]. split; [by rewrite (newEffects_app _ _ He)|by rewrite Hp].
Qed.

(** The state after a handler ran, before [processQueue] goes on. *)
Lemma handled_fields (s : @Server P R World) call w (added : list (@Added P)) :
  timer s = false →
  let s' := addAll added (withWorld (emit s [call]) w) in
  queue s' = queue s ++ (addedMessage <$> added)
  ∧ effects s' = effects s ++ [call]
  ∧ (timer s' = true ↔ added ≠ [])
  ∧ (timer s' = true → queue s' ≠ []).
Proof.
  intros Htimer. cbv zeta.
  destruct (addAll_fields added (withWorld (emit s [call]) w))
    as (Hq & _ & _ & He & _ & Harmed).
  rewrite addAll_timer. cbn [timer withWorld emit]. rewrite Htimer. cbn [orb].
  split; [done|]. split; [done|]. split.
  - apply bool_decide_eq_true.
  - intros Hadded%bool_decide_eq_true. rewrite Hq. cbn [queue withWorld emit].
    destruct added; [done|]. cbn [fmap list_fmap]. by destruct (queue s).
Qed.

Lemma filter_bool_cons {A} (f : A → bool) (a : A) l :
  filter (λ a, f a) (a :: l)
  = if f a then a :: filter (λ a, f a) l else filter (λ a, f a) l.
Proof. rewrite filter_cons. destruct (f a); by destruct (decide _). Qed.









(** C4. A request (a message with a token and its two callbacks) whose
    token is signaled when it is dispatched is rejected with the
    [RequestCancelled] error; the effects of the dispatch hold no handler
    call and the world is as before. *)
Theorem cancelled_request_never_handled (s : @Server P R World) message rest token0 :
  queue s = message :: rest →
  Request_is message = true →
  token message = Some token0 →
  isCancellationRequested (world s) token0 = true →
  ∃ sink,
    reject message = Some sink
    ∧ effects (processQueue isCancellationRequested s)
      = effects s
        ++ [Rejects sink (ResponseError RequestCancelled "Request got cancelled")]
    ∧ calls (newEffects isCancellationRequested s) = 0
    ∧ world (processQueue isCancellationRequested s) = world s.
Proof.
  intros Hq (token1 & resolve0 & reject0 & Ht & Hr & Hj)%Request_is_true Ht' Hc.
  rewrite Ht in Ht'. injection Ht' as ->.
  exists reject0. split; [done|].
  apply (rejected_unhandled s message rest).
  by apply (processQueue_cancelled s message rest token0 resolve0 reject0).
Qed.

(** C2, as the code has it.  For a request whose method is registered with
    a version provider: when the message carries a snapshot and the live
    version the provider returns differs from it, the request is rejected
    with [RequestCancelled] and no handler is called; when the message
    carries no snapshot, or its snapshot is the live version the provider
    returns, and the token is not signaled, the handler is called exactly
    once and nothing is rejected. *)
Theorem versioned_request_dispatch
    (s : @Server P R World) message rest token0 elem (provider : VersionProvider) :
  queue s = message :: rest →
  Request_is message = true →
  token message = Some token0 →
  requestHandlers s !! method message = Some elem →
  rq_versionProvider elem = Some provider →
  (∀ snapshot live,
      msgVersion message = Some snapshot →
      provider (params message) (world s) = Returned live →
      Some snapshot ≠ live →
      ∃ sink,
        reject message = Some sink
        ∧ effects (processQueue isCancellationRequested s)
          = effects s
        ++ [Rejects sink (ResponseError RequestCancelled "Request got cancelled")]
        ∧ calls (newEffects isCancellationRequested s) = 0
        ∧ world (processQueue isCancellationRequested s) = world s)
  ∧ (isCancellationRequested (world s) token0 = false →
     msgVersion message = None
     ∨ provider (params message) (world s) = Returned (msgVersion message) →
     (∃ outcome,
         newEffects isCancellationRequested s
         = [CallRequestHandler (method message) (params message) token0; outcome])
     ∧ calls (newEffects isCancellationRequested s) = 1
     ∧ rejections (newEffects isCancellationRequested s) = 0).
Proof.
  intros Hq (token1 & resolve0 & reject0 & Ht & Hr & Hj)%Request_is_true Ht' He Hv.
  rewrite Ht in Ht'. injection Ht' as ->. split.
  - intros snapshot live Hsnap Hlive Hne. exists reject0. split; [done|].
    apply (rejected_unhandled s message rest).
    destruct (isCancellationRequested (world s) token0) eqn:Hc.
    + by apply (processQueue_cancelled s message rest token0 resolve0 reject0).
    + apply (processQueue_request_stale s message rest token0 resolve0 reject0 elem);
        try done.
      unfold stale. rewrite Hv, Hsnap, Hlive. f_equal. by apply bool_decide_eq_true_2.
  - intros Hc Hsame.
    assert (stale (rq_versionProvider elem) message (world s) = Returned false) as Hst.
    { unfold stale. rewrite Hv. destruct (msgVersion message) as [snapshot|] eqn:Hsnap;
        [|done].
      destruct Hsame as [?| ->]; [done|].
      f_equal. apply bool_decide_eq_false_2. by intros Hne. }
    destruct (processQueue_request_runs s message rest token0 resolve0 reject0 elem)
      as [Heff _]; try done.
    rewrite (newEffects_app _ _ Heff).
    split; [by eexists|]. by destruct (_.2) as [[value|thenable]|].
Qed.

(** C10. A queued message without a snapshot ([documentVersion] undefined)
    is never found stale, whatever version provider its method is registered
    with and whatever that provider returns at dispatch: a request (whose
    token is not signaled, the test that comes first) is handed to its
    handler and is not rejected, and a notification is handed to its
    handler. *)
Theorem unversioned_message_skips_staleness (s : @Server P R World) message rest :
  queue s = message :: rest →
  msgVersion message = None →
  (∀ (versionProvider : option VersionProvider) (w : World),
      stale versionProvider message w = Returned false)
  ∧ (∀ token0 elem,
      Request_is message = true →
      token message = Some token0 →
      isCancellationRequested (world s) token0 = false →
      requestHandlers s !! method message = Some elem →
      (∃ outcome,
          newEffects isCancellationRequested s
          = [CallRequestHandler (method message) (params message) token0; outcome])
      ∧ calls (newEffects isCancellationRequested s) = 1
      ∧ rejections (newEffects isCancellationRequested s) = 0)
  ∧ (∀ elem,
      Request_is message = false →
      notificationHandlers s !! method message = Some elem →
      newEffects isCancellationRequested s
      = CallNotificationHandler (method message) (params message)
        :: match (nt_handler elem (params message) (world s)).2 with
           | Returned _ => []
           | Thrown => [HandlerThrows]
           end).
Proof.
  intros Hq Hsnap.
  assert (∀ (versionProvider : option VersionProvider) (w : World),
            stale versionProvider message w = Returned false) as Hfresh.
  { intros versionProvider w. unfold stale. rewrite Hsnap. by destruct versionProvider. }
  split; [done|]. split.
  - intros token0 elem (token1 & resolve0 & reject0 & Ht & Hr & Hj)%Request_is_true
      Ht' Hc He.
    rewrite Ht in Ht'. injection Ht' as ->.
    destruct (processQueue_request_runs s message rest token0 resolve0 reject0 elem)
      as [Heff _]; try done.
    rewrite (newEffects_app _ _ Heff).
    split; [by eexists|]. by destruct (_.2) as [[value|thenable]|].
  - intros elem Hn He.
    destruct (processQueue_notification_runs s message rest elem) as [Heff _];
      try done.
    by rewrite (newEffects_app _ _ Heff).
Qed.

(** A notification that carries a snapshot which is not the live version
    is dropped: no handler is called, nothing is rejected, the world is as
    before - and the drain is not armed again, whatever is left in the
    queue. *)
Lemma stale_notification_dropped
    (s : @Server P R World) message rest elem provider snapshot live :
  queue s = message :: rest →
  Request_is message = false →
  notificationHandlers s !! method message = Some elem →
  nt_versionProvider elem = Some provider →
  msgVersion message = Some snapshot →
  provider (params message) (world s) = Returned live →
  Some snapshot ≠ live →
  newEffects isCancellationRequested s = []
  ∧ world (processQueue isCancellationRequested s) = world s
  ∧ queue (processQueue isCancellationRequested s) = rest
  ∧ timer (processQueue isCancellationRequested s) = timer s.
Proof.
  intros Hq Hn He Hv Hsnap Hlive Hne.
  assert (stale (nt_versionProvider elem) message (world s) = Returned true) as Hst.
  { unfold stale. rewrite Hv, Hsnap, Hlive. f_equal. by apply bool_decide_eq_true_2. }
  rewrite newEffects_unfold.
  rewrite (processQueue_notification_stale s message rest elem) by done.
  simpl. by rewrite drop_all.
Qed.

End MessageQueueProperties.

(** * The scenarios of the specification *)

Example scenario1 :
  Fixes.getOverlapFree
    (snapshotOf [("kB", fixAt "r" 3 8); ("kC", fixAt "r" 8 10); ("kA", fixAt "r" 0 5)])
  = [fixAt "r" 0 5; fixAt "r" 8 10].
Proof. vm_compute. reflexivity. Qed.

(** Fixes that compare equal keep the order of the snapshot. *)
Example getAllSorted_stable :
  Fixes.getAllSorted
    (snapshotOf [("kX", fixAt "x" 3 8); ("kY", fixAt "y" 3 8); ("kZ", fixAt "z" 3 8);
                 ("kA", fixAt "a" 0 1)])
  = [fixAt "a" 0 1; fixAt "x" 3 8; fixAt "y" 3 8; fixAt "z" 3 8].
Proof. vm_compute. reflexivity. Qed.

Example scenario2 :
  Fixes.getAllSorted
    (snapshotOf [("kC", fixAt "y" 5 9); ("kB", fixAt "x" 5 9); ("kA", fixAt "x" 0 5)])
  = [fixAt "x" 0 5; fixAt "y" 5 9; fixAt "x" 5 9].
Proof. vm_compute. reflexivity. Qed.

Example exampleEdits_sorted :
  (λ f, (ruleId f, range (edit f))) <$> Fixes.getAllSorted exampleEdits
  = [("semi", (0, 5)); ("quotes", (2, 3)); ("semi", (4, 8)); ("semi", (10, 12));
     ("semi", (20, 24)); ("semi", (30, 31))]%Z.
Proof. vm_compute. reflexivity. Qed.

Example exampleEdits_keys :
  fst <$> exampleEdits
  = ["[0,20,0,20]-semi"; "[0,0,0,0]-semi"; "[0,2,0,2]-quotes"; "[0,10,0,10]-semi";
     "[0,4,0,4]-semi"; "[0,30,0,30]-semi"].
Proof. vm_compute. reflexivity. Qed.

(** * Properties of the correlation store *)

Lemma OMap_get_set_eq {V} k (v : V) m : OMap.get k (OMap.set k v m) = Some v.
Proof.
  induction m as [|[k' v'] m IH]; simpl.
  - by rewrite decide_True.
  - destruct (decide (k' = k)); simpl; [by rewrite decide_True|by rewrite decide_False].
Qed.

Lemma OMap_get_set_ne {V} k k' (v : V) m :
  k ≠ k' → OMap.get k' (OMap.set k v m) = OMap.get k' m.
Proof.
  intros Hne. induction m as [|[k0 v0] m IH]; simpl.
  - by rewrite decide_False.
  - destruct (decide (k0 = k)) as [->|]; simpl.
    + by rewrite !decide_False.
    + destruct (decide (k0 = k')); [done|apply IH].
Qed.

Lemma fixable_autoFixOf document problem :
  fixable problem ↔ is_Some (autoFixOf document problem).
Proof.
  unfold fixable, autoFixOf.
  destruct (ESLintProblem.fix_ problem) as [fix0|],
    (truthy (ESLintProblem.ruleId problem)) as [rule|]; simpl.
  - split; [by eexists|]. intros _. split; by eexists.
  - split; [intros [_ Hr]; by apply is_Some_None in Hr|].
    intros Hn; by apply is_Some_None in Hn.
  - split; [intros [Hf _]; by apply is_Some_None in Hf|].
    intros Hn; by apply is_Some_None in Hn.
  - split; [intros [Hf _]; by apply is_Some_None in Hf|].
    intros Hn; by apply is_Some_None in Hn.
Qed.

(** One step of [validate]'s loop, seen from the store: the entry of the
    document moves by [recordInto], the other entries stay. *)
Lemma validateProblem_store document st problem :
  (validateProblem document true st problem).2 !! TextDocument.uri document
  = recordInto document (st.2 !! TextDocument.uri document) problem
  ∧ ∀ other, other ≠ TextDocument.uri document →
      (validateProblem document true st problem).2 !! other = st.2 !! other.
Proof.
  unfold validateProblem, recordInto, recordCodeAction, autoFixOf.
  destruct problem as [problem|]; [|done]. simpl.
  destruct (ESLintProblem.fix_ problem) as [fix0|]; [|done].
  destruct (truthy (ESLintProblem.ruleId problem)) as [rule|]; [|done].
  simpl. split; [by rewrite lookup_insert_eq|].
  intros other Hne. by rewrite lookup_insert_ne.
Qed.

Lemma validate_loop_store document findings st :
  (foldl (validateProblem document true) st findings).2 !! TextDocument.uri document
  = foldl (recordInto document) (st.2 !! TextDocument.uri document) findings
  ∧ ∀ other, other ≠ TextDocument.uri document →
      (foldl (validateProblem document true) st findings).2 !! other = st.2 !! other.
Proof.
  revert st. induction findings as [|problem findings IH]; intros st; [done|].
  cbn [foldl].
  destruct (IH (validateProblem document true st problem)) as [-> Hother].
  destruct (validateProblem_store document st problem) as [-> Hother'].
  split; [done|]. intros other Hne. by rewrite Hother, Hother'.
Qed.

Lemma recorded_snoc document findings problem :
  recorded document (findings ++ [problem])
  = recordInto document (recorded document findings) problem.
Proof. unfold recorded. by rewrite foldl_app. Qed.

Lemma recorded_finding document findings problem :
  Some problem ∈ findings → fixable problem →
  ∃ edits autoFix problem',
    recorded document findings = Some edits
    ∧ OMap.get (computeKey (makeDiagnostic problem)) edits = Some autoFix
    ∧ documentVersion autoFix = TextDocument.version document
    ∧ Some problem' ∈ findings
    ∧ computeKey (makeDiagnostic problem') = computeKey (makeDiagnostic problem)
    ∧ autoFixOf document problem' = Some autoFix.
Proof.
  induction findings as [|latest findings IH] using rev_ind; intros Hin Hfix.
  { by apply elem_of_nil in Hin. }
  assert (Some problem ∈ findings →
          ∃ edits autoFix problem',
            recorded document findings = Some edits
            ∧ OMap.get (computeKey (makeDiagnostic problem)) edits = Some autoFix
            ∧ documentVersion autoFix = TextDocument.version document
            ∧ Some problem' ∈ findings ++ [latest]
            ∧ computeKey (makeDiagnostic problem') = computeKey (makeDiagnostic problem)
            ∧ autoFixOf document problem' = Some autoFix) as Hearlier.
  { intros Hin'.
    destruct (IH Hin' Hfix) as (edits & autoFix & problem' & ? & ? & ? & ? & ? & ?).
    exists edits, autoFix, problem'. repeat split; try done.
    apply elem_of_app. by left. }
  rewrite recorded_snoc. unfold recordInto.
  apply elem_of_app in Hin as [Hin|Hin%list_elem_of_singleton].
  - destruct (Hearlier Hin)
      as (edits & autoFix & problem' & -> & Hget & Hv & Hin' & Hk & Ha).
    destruct latest as [latest|]; simpl; [|by eauto 10].
    destruct (autoFixOf document latest) as [autoFix'|] eqn:Hlatest; simpl;
      [|by eauto 10].
    destruct (decide (computeKey (makeDiagnostic latest)
                      = computeKey (makeDiagnostic problem))) as [Hkey|Hkey].
    + exists (OMap.set (computeKey (makeDiagnostic latest)) autoFix' edits),
        autoFix', latest.
      split; [done|]. rewrite <- Hkey, OMap_get_set_eq. split; [done|].
      split; [|split; [apply elem_of_app; right; by apply list_elem_of_singleton|done]].
      unfold autoFixOf in Hlatest.
      destruct (ESLintProblem.fix_ latest), (truthy (ESLintProblem.ruleId latest));
        simpl in Hlatest; try done. by injection Hlatest as <-.
    + exists (OMap.set (computeKey (makeDiagnostic latest)) autoFix' edits),
        autoFix, problem'.
      split; [done|]. by rewrite OMap_get_set_ne.
  - subst latest. simpl.
    apply (fixable_autoFixOf document) in Hfix as [autoFix Hfix]. rewrite Hfix. simpl.
    eexists _, autoFix, problem. split; [done|].
    rewrite OMap_get_set_eq. split; [done|].
    split; [|split; [apply elem_of_app; right; by apply list_elem_of_singleton|done]].
    unfold autoFixOf in Hfix.
    destruct (ESLintProblem.fix_ problem), (truthy (ESLintProblem.ruleId problem));
      simpl in Hfix; try done. by injection Hfix as <-.
Qed.

(** C9, as the code has it.  A validation pass discards the entry of the
    document before the lint run, also when the run then fails; with the
    [autoFix] setting on, the entry after the pass is built from the
    findings of this pass alone, the entries of other documents stay, and
    every finding that carries a fix and a rule id has, under the key of its
    diagnostic, an entry stamped with the current version of the document:
    its own [AutoFix], or that of a later finding with the same key. *)
Theorem validation_pass_rebuilds_fixes
    (document : TextDocument.t) (publishDiagnostics : bool)
    (report : ESLintReport) (codeActions : CodeActions) :
  let uri := TextDocument.uri document in
  (∀ autoFix,
      validate document autoFix publishDiagnostics ExecuteThrows codeActions
      = ValidateThrew (delete uri codeActions))
  ∧ ∃ codeActions' sent,
      validate document true publishDiagnostics (Reports report) codeActions
      = Validated codeActions' sent
      ∧ codeActions' !! uri = recorded document (findingsOf report)
      ∧ (∀ other, other ≠ uri → codeActions' !! other = codeActions !! other)
      ∧ ∀ problem,
          Some problem ∈ findingsOf report → fixable problem →
          ∃ edits autoFix problem',
            codeActions' !! uri = Some edits
            ∧ OMap.get (computeKey (makeDiagnostic problem)) edits = Some autoFix
            ∧ documentVersion autoFix = TextDocument.version document
            ∧ Some problem' ∈ findingsOf report
            ∧ computeKey (makeDiagnostic problem') = computeKey (makeDiagnostic problem)
            ∧ autoFixOf document problem' = Some autoFix.
Proof.
  intros uri. split; [done|].
  unfold validate, findingsOf. fold uri.
  destruct (results report) as [|docReport others].
  - eexists _, _. split; [done|]. split; [apply lookup_delete_eq|].
    split; [intros other Hne; by apply lookup_delete_ne|].
    intros problem Hin. by apply elem_of_nil in Hin.
  - destruct (validate_loop_store document (messages docReport)
                ([], delete uri codeActions)) as [Huri Hother].
    destruct (foldl _ _ (messages docReport)) as [diagnostics codeActions'].
    simpl in Huri, Hother. fold uri in Huri. rewrite lookup_delete_eq in Huri.
    eexists _, _. split; [done|]. split; [done|].
    split; [intros other Hne; rewrite Hother by done; by apply lookup_delete_ne|].
    intros problem Hin Hfix. rewrite Huri. by apply recorded_finding.
Qed.

(** * Properties of the command dispatch *)

(** C8. For the command [eslint.applyAutoFix]: when the document of the
    identifier is not open, or its live version is not the version of the
    identifier, no edits are computed and the handler returns the empty
    result without applying an edit; when the document is open at that
    version and has recorded fixes, the edits applied are those of
    [getOverlapFree()] over the current store, placed in this document. *)
Theorem applyAutoFix_fails_closed
    (documents : gmap string TextDocument.t) (codeActions : CodeActions)
    (commands : option (gmap string WorkspaceChange))
    (params : ExecuteCommandParams) identifier others :
  ec_command params = CommandIds.applyAutoFix →
  ec_arguments params = identifier :: others →
  let uri := VersionedTextDocumentIdentifier.uri identifier in
  ((documents !! uri = None
    ∨ ∃ textDocument,
        documents !! uri = Some textDocument
        ∧ VersionedTextDocumentIdentifier.version identifier
          ≠ TextDocument.version textDocument) →
   computeAllFixes documents codeActions identifier = None
   ∧ executeCommandHandler documents codeActions commands params = EmptyResult)
  ∧ (∀ textDocument edits,
       documents !! uri = Some textDocument →
       VersionedTextDocumentIdentifier.version identifier
       = TextDocument.version textDocument →
       codeActions !! uri = Some edits →
       Fixes.isEmpty edits = false →
       executeCommandHandler documents codeActions commands params
       = ApplyEdit (mkWorkspaceChange identifier
                      (textEditOf textDocument <$> Fixes.getOverlapFree edits))).
Proof.
  intros Hcommand Harguments uri. unfold executeCommandHandler.
  rewrite Hcommand, Harguments, bool_decide_eq_true_2 by done. split.
  - intros Hstale.
    assert (computeAllFixes documents codeActions identifier = None) as ->; [|done].
    unfold computeAllFixes. fold uri.
    destruct Hstale as [->|(textDocument & -> & Hversion)]; [done|].
    by rewrite bool_decide_eq_true_2.
  - intros textDocument edits Hdocument Hversion Hedits Hempty.
    unfold computeAllFixes. fold uri.
    rewrite Hdocument, Hedits, Hempty, bool_decide_eq_false_2 by (by intros ?).
    simpl. by rewrite createTextEdit_open.
Qed.

(** * The claims on concrete inputs *)

(** The specification's reading of C2 fails on two inputs.  First: the
    code-action request of a document that was not open when the request
    arrived carries no snapshot; the provider's live version at dispatch is
    1, which is not the (missing) snapshot, and still the request is not
    rejected: its handler runs.  Second: a request whose snapshot is the
    live version but whose token is signaled is rejected, and its handler
    does not run. *)
Lemma request_version_check_counterexample :
  (queue unstampedRequestServer = [requestMessage None 1]
   ∧ (∃ elem,
         requestHandlers unstampedRequestServer !! codeActionType = Some elem
         ∧ rq_versionProvider elem = Some codeActionVersion)
   ∧ codeActionVersion exampleUri (world unstampedRequestServer) = Returned (Some 1%Z)
   ∧ Returned (msgVersion (requestMessage None 1))
     ≠ codeActionVersion exampleUri (world unstampedRequestServer)
   ∧ newEffects neverCancelled unstampedRequestServer
     = [CallRequestHandler codeActionType exampleUri 1; Resolves 1 ()]
   ∧ rejections (newEffects neverCancelled unstampedRequestServer) = 0)
  ∧ (queue cancelledRequestServer = [requestMessage (Some 3%Z) 7]
     ∧ Returned (msgVersion (requestMessage (Some 3%Z) 7))
       = codeActionVersion exampleUri (world cancelledRequestServer)
     ∧ newEffects cancelled7 cancelledRequestServer
       = [Rejects 1 (ResponseError RequestCancelled "Request got cancelled")]
     ∧ calls (newEffects cancelled7 cancelledRequestServer) = 0).
Proof.
  split.
  - split; [by vm_compute|]. split.
    { exists (mkRequestEntry answering (Some codeActionVersion)). by vm_compute. }
    split; [by vm_compute|]. split; [by vm_compute|]. split; by vm_compute.
  - repeat split; by vm_compute.
Qed.

Lemma drain_unarmed {P R World} (isCancellationRequested : World → nat → bool)
    fuel (s : @Server P R World) :
  timer s = false → drain isCancellationRequested fuel s = s.
Proof. intros Ht. destruct fuel; simpl; [done|by rewrite Ht]. Qed.

(** C5, on scenario 3.  The first tick shifts the notification of version 1
    and drops it without calling the handler; it returns before the drain
    is armed again, so that however long the armed drain is left to run, the
    notification of version 2 stays in the queue and no validation has
    run. *)
Theorem scenario3_version2_never_dispatched (fuel : nat) :
  let s := drain neverCancelled (S fuel) scenario3Server in
  shifted s = [mkMessage validateType "file:///a.js" (Some 1%Z) None None None]
  ∧ queue s = [mkMessage validateType "file:///a.js" (Some 2%Z) None None None]
  ∧ timer s = false
  ∧ effects s = []
  ∧ calls (effects s) = 0.
Proof.
  cbv zeta.
  change (drain neverCancelled (S fuel) scenario3Server)
    with (if timer scenario3Server
          then drain neverCancelled fuel (tick neverCancelled scenario3Server)
          else scenario3Server).
  replace (timer scenario3Server) with true by (by vm_compute).
  rewrite drain_unarmed by (by vm_compute).
  repeat split; by vm_compute.
Qed.

(** With the drain armed by hand after the stale notification is dropped,
    the notification of version 2 is the next one dispatched, and it is
    handled. *)
Example scenario3_if_rearmed :
  let s := tick neverCancelled (withTimer (tick neverCancelled scenario3Server) true) in
  effects s = [CallNotificationHandler validateType "file:///a.js"]
  ∧ queue s = [].
Proof. split; by vm_compute. Qed.

(** C9 as the specification words it fails when the [autoFix] setting is
    off, and for a finding with a fix but without a rule id: the pass
    records nothing for a finding that carries a fix. *)
Lemma fix_not_recorded_counterexample :
  (let problem := exampleProblem "semi" 1 0 5 in
   is_Some (ESLintProblem.fix_ problem)
   ∧ validate exampleDocument false true
       (Reports (mkReport [mkDocReport [Some problem]])) ∅
     = Validated ∅ (Some ("file:///a.js", [makeDiagnostic problem])))
  ∧ (let problem :=
       ESLintProblem.mk 1 1 None None 2 Null "problem" (Some (mkEdit (0, 5)%Z "")) in
     is_Some (ESLintProblem.fix_ problem)
     ∧ validate exampleDocument true true
         (Reports (mkReport [mkDocReport [Some problem]])) ∅
       = Validated ∅ (Some ("file:///a.js", [makeDiagnostic problem]))).
Proof. split; (split; [by eexists|by vm_compute]). Qed.

(** ** The theorems at concrete inputs *)

(** Scenario 1: of the two fixes [getOverlapFree] returns, the first starts
    first and ends before the second starts. *)
Lemma getOverlapFree_sorted_and_overlap_free_witness :
  (range0 (fixAt "r" 0 5) ≤ range0 (fixAt "r" 8 10))%Z
  ∧ ¬ (range1 (fixAt "r" 0 5) > range0 (fixAt "r" 8 10))%Z.
Proof.
  apply (proj2 (getOverlapFree_sorted_and_overlap_free
                  (snapshotOf [("kB", fixAt "r" 3 8); ("kC", fixAt "r" 8 10);
                               ("kA", fixAt "r" 0 5)]))
               0 1).
  - lia.
  - vm_compute. reflexivity.
  - vm_compute. reflexivity.
Defined.

(** Scenario 2: the two fixes that start at offset 5 come in the order of
    their ends. *)
Lemma getAllSorted_order_witness :
  (range0 (fixAt "y" 5 9) ≤ range0 (fixAt "x" 5 9))%Z
  ∧ (range0 (fixAt "y" 5 9) = range0 (fixAt "x" 5 9) →
     range1 (fixAt "y" 5 9) = 0
     ∨ (range1 (fixAt "x" 5 9) ≠ 0
        ∧ range1 (fixAt "y" 5 9) ≤ range1 (fixAt "x" 5 9)))%Z.
Proof.
  apply (proj2 (getAllSorted_order
                  (snapshotOf [("kC", fixAt "y" 5 9); ("kB", fixAt "x" 5 9);
                               ("kA", fixAt "x" 0 5)]))
               1 2).
  - lia.
  - vm_compute. reflexivity.
  - vm_compute. reflexivity.
Defined.

(** Scenario 4 on the example store: five fixes of the rule [semi], one
    overlapping pair, four fixes in the same-rule batch. *)
Lemma bulk_batches_two_accumulators_witness :
  length (accumulate (ofRule "semi") [] (Fixes.getAllSorted exampleEdits)) = 4
  ∧ overlapPairs (accumulate (ofRule "semi") [] (Fixes.getAllSorted exampleEdits)) = 0.
Proof.
  apply (proj2 (proj2 (bulk_batches_two_accumulators exampleEdits "semi"))).
  - vm_compute. reflexivity.
  - vm_compute. reflexivity.
Defined.

(** The code-action request for the fourth finding of the example report
    prepares the same-rule command from the four fixes of the batch. *)
Example exampleParams_commands :
  ∃ commands result,
    codeActionHandler {[exampleUri := exampleDocument]} exampleStore exampleParams
    = Some (commands, result)
    ∧ result = [mkCommand "Fix this semi problem" CommandIds.applySingleFix;
                mkCommand "Fix all semi problems" CommandIds.applySameFixes;
                mkCommand "Fix all auto-fixable problems" CommandIds.applyAllFixes]
    ∧ (λ c, length (edits c)) <$> commands !! CommandIds.applySameFixes = Some 4
    ∧ (λ c, length (edits c)) <$> commands !! CommandIds.applyAllFixes = Some 4.
Proof.
  destruct (codeActionHandler {[exampleUri := exampleDocument]} exampleStore exampleParams)
    as [[commands result]|] eqn:Hhandler; [|by vm_compute in Hhandler].
  exists commands, result. split; [done|].
  assert (Some (commands, result)
          = codeActionHandler {[exampleUri := exampleDocument]} exampleStore exampleParams)
    as Heq by done.
  clear Hhandler. vm_compute in Heq. injection Heq as -> ->.
  repeat split; by vm_compute.
Qed.


(** The same run in full: the two notifications are handled in the order in
    which they were added, one per tick, and the drain ends unarmed over an
    empty queue. *)
Example fifoServer_run :
  let validate uri := mkMessage validateType uri (Some 1%Z) None None None in
  shifted fifoServer = [validate "file:///a.js"]
  ∧ queue fifoServer = [validate "file:///b.js"]
  ∧ timer fifoServer = true
  ∧ effects fifoServer = [CallNotificationHandler validateType "file:///a.js"]
  ∧ shifted (tick neverCancelled fifoServer)
    = [validate "file:///a.js"; validate "file:///b.js"]
  ∧ effects (tick neverCancelled fifoServer)
    = [CallNotificationHandler validateType "file:///a.js";
       CallNotificationHandler validateType "file:///b.js"]
  ∧ queue (tick neverCancelled fifoServer) = []
  ∧ timer (tick neverCancelled fifoServer) = false.
Proof. repeat split; by vm_compute. Qed.

(** The request with the signaled token 7 is rejected. *)
Lemma cancelled_request_never_handled_witness :
  ∃ sink,
    reject (requestMessage (Some 3%Z) 7) = Some sink
    ∧ effects (processQueue cancelled7 cancelledRequestServer)
      = effects cancelledRequestServer
        ++ [Rejects sink (ResponseError RequestCancelled "Request got cancelled")]
    ∧ calls (newEffects cancelled7 cancelledRequestServer) = 0
    ∧ world (processQueue cancelled7 cancelledRequestServer)
      = world cancelledRequestServer.
Proof.
  apply (cancelled_request_never_handled cancelled7 cancelledRequestServer
           (requestMessage (Some 3%Z) 7) [] 7).
  - vm_compute. reflexivity.
  - reflexivity.
  - reflexivity.
  - vm_compute. reflexivity.
Defined.

(** The request stamped with version 3 is rejected when the document is at
    version 4. *)
Lemma versioned_request_dispatch_witness :
  ∃ sink,
    reject (requestMessage (Some 3%Z) 1) = Some sink
    ∧ effects (processQueue neverCancelled staleRequestServer)
      = effects staleRequestServer
        ++ [Rejects sink (ResponseError RequestCancelled "Request got cancelled")]
    ∧ calls (newEffects neverCancelled staleRequestServer) = 0
    ∧ world (processQueue neverCancelled staleRequestServer)
      = world staleRequestServer.
Proof.
  apply (proj1 (versioned_request_dispatch neverCancelled staleRequestServer
                  (requestMessage (Some 3%Z) 1) [] 1
                  (mkRequestEntry answering (Some codeActionVersion)) codeActionVersion
                  ltac:(vm_compute; reflexivity) ltac:(reflexivity) ltac:(reflexivity)
                  ltac:(vm_compute; reflexivity) ltac:(reflexivity))
               3%Z (Some 4%Z)).
  - reflexivity.
  - vm_compute. reflexivity.
  - discriminate.
Defined.

(** The request without a snapshot is handled although the document has a
    version by now. *)
Lemma unversioned_message_skips_staleness_witness :
  (∃ outcome,
      newEffects neverCancelled unstampedRequestServer
      = [CallRequestHandler (method (requestMessage None 1))
           (params (requestMessage None 1)) 1; outcome])
  ∧ calls (newEffects neverCancelled unstampedRequestServer) = 1
  ∧ rejections (newEffects neverCancelled unstampedRequestServer) = 0.
Proof.
  apply (proj1 (proj2 (unversioned_message_skips_staleness neverCancelled
                         unstampedRequestServer (requestMessage None 1) []
                         ltac:(vm_compute; reflexivity) ltac:(reflexivity)))
               1 (mkRequestEntry answering (Some codeActionVersion))).
  - reflexivity.
  - reflexivity.
  - reflexivity.
  - vm_compute. reflexivity.
Defined.

(** The example document is open at version 4; a command for its version 3
    applies nothing. *)
Lemma applyAutoFix_fails_closed_witness :
  computeAllFixes {[exampleUri := exampleDocument]} exampleStore
    (VersionedTextDocumentIdentifier.mk exampleUri 3) = None
  ∧ executeCommandHandler {[exampleUri := exampleDocument]} exampleStore None
      (mkExecuteCommandParams CommandIds.applyAutoFix
         [VersionedTextDocumentIdentifier.mk exampleUri 3])
    = EmptyResult.
Proof.
  apply (proj1 (applyAutoFix_fails_closed
                  {[exampleUri := exampleDocument]} exampleStore None
                  (mkExecuteCommandParams CommandIds.applyAutoFix
                     [VersionedTextDocumentIdentifier.mk exampleUri 3])
                  (VersionedTextDocumentIdentifier.mk exampleUri 3) []
                  ltac:(reflexivity) ltac:(reflexivity))).
  right. exists exampleDocument. split.
  - vm_compute. reflexivity.
  - vm_compute. discriminate.
Defined.

(** The first finding of the example report has its entry in the store
    after the pass, stamped with version 4. *)
Lemma validation_pass_rebuilds_fixes_witness :
  ∃ codeActions' sent edits autoFix,
    validate exampleDocument true true (Reports exampleReport) ∅
    = Validated codeActions' sent
    ∧ codeActions' !! "file:///a.js" = Some edits
    ∧ OMap.get (computeKey (makeDiagnostic (exampleProblem "semi" 21 20 24))) edits
      = Some autoFix
    ∧ documentVersion autoFix = 4%Z.
Proof.
  destruct (proj2 (validation_pass_rebuilds_fixes exampleDocument true exampleReport ∅))
    as (codeActions' & sent & Hvalidate & _ & _ & Hfindings).
  destruct (Hfindings (exampleProblem "semi" 21 20 24))
    as (edits & autoFix & _ & Hedits & Hget & Hversion & _).
  - left.
  - split; eexists; reflexivity.
  - exists codeActions', sent, edits, autoFix. repeat split; assumption.
Defined.

(** * Further properties of the [Fixes] class *)




(** X2. When no two fixes of the snapshot overlap (in sorted order),
    [getOverlapFree] returns all of them: it is [getAllSorted()]. *)
Theorem getOverlapFree_keeps_all_when_apart (edits : OMap.t AutoFix) :
  overlapPairs (Fixes.getAllSorted edits) = 0 →
  Fixes.getOverlapFree edits = Fixes.getAllSorted edits.
Proof.
  intros Hnone. rewrite getOverlapFree_greedy.
  destruct (Fixes.getAllSorted edits) as [|first rest]; [done|].
  simpl. f_equal. by apply overlapPairs_none.
Qed.

Lemma batches_all ruleId0 sorted version same all :
  (foldl (batchStep ruleId0) (version, same, all) sorted).2
  = accumulate (λ _, true) all sorted.
Proof.
  revert version same all.
  induction sorted as [|f sorted IH]; intros version same all; [done|].
  cbn [foldl accumulate]. unfold batchStep at 2. rewrite !getLastEdit_last.
  apply IH.
Qed.

(** X3. The two ways to fix everything agree: the all-rule batch the
    code-action handler builds for [applyAllFixes] is the list
    [getOverlapFree()] computes for [applyAutoFix], whatever the triggering
    rule and the starting version. *)
Theorem all_batch_is_getOverlapFree
    (edits : OMap.t AutoFix) (ruleId0 : option string) (version : Z) :
  (batches ruleId0 version (Fixes.getAllSorted edits)).2 = Fixes.getOverlapFree edits.
Proof.
  unfold batches. by rewrite batches_all, accumulate_greedy, getOverlapFree_greedy.
Qed.

(** * Properties of diagnostics and their keys *)

Lemma pretty_N_char_undelimited x :
  pretty_N_char x ≠ ","%char ∧ pretty_N_char x ≠ "]"%char.
Proof. unfold pretty_N_char. by repeat case_match. Qed.

Lemma pretty_N_go_undelimited x s : undelimited s → undelimited (pretty_N_go x s).
Proof.
  revert s. induction (N.lt_wf_0 x) as [x _ IH]; intros s Hs.
  assert (x = 0 ∨ 0 < x)%N as [->|Hpos] by lia.
  - by rewrite pretty_N_go_0.
  - rewrite pretty_N_go_step by done. apply IH; [by apply N.div_lt|].
    destruct (pretty_N_char_undelimited (x `mod` 10)). by simpl.
Qed.

Lemma showNumber_undelimited z : undelimited (showNumber z).
Proof.
  unfold showNumber, pretty, pretty_Z, pretty, pretty_positive, pretty, pretty_N.
  destruct z as [|p|p]; [by simpl|..]; destruct (decide _); try done.
  - by apply pretty_N_go_undelimited.
  - simpl. split; [done|]. split; [done|]. by apply pretty_N_go_undelimited.
Qed.

Lemma undelimited_split a b sep r1 r2 :
  sep = ","%char ∨ sep = "]"%char →
  undelimited a → undelimited b →
  a +:+ String sep r1 = b +:+ String sep r2 → a = b ∧ r1 = r2.
Proof.
  intros Hsep. revert b. induction a as [|c a IH]; intros [|c' b] Ha Hb Heq;
    simpl in *.
  - by injection Heq.
  - injection Heq as <- _. destruct Hb as (? & ? & _), Hsep; congruence.
  - injection Heq as -> _. destruct Ha as (? & ? & _), Hsep; congruence.
  - injection Heq as -> Heq. destruct Ha as (_ & _ & Ha), Hb as (_ & _ & Hb).
    destruct (IH b Ha Hb Heq) as [-> ->]. done.
Qed.

(** X4. The key of a diagnostic determines its range and the printed form
    of its code, and nothing else: two diagnostics have the same key exactly
    when they have the same range and their codes print the same.  A missing
    code prints as [undefined] and the code [null] as [null], so that a
    diagnostic without a code shares its key only with a diagnostic of the
    same range whose code is missing too, or is the string ['undefined']. *)
Theorem computeKey_injective (d1 d2 : Diagnostic.t) :
  computeKey d1 = computeKey d2
  ↔ Diagnostic.range d1 = Diagnostic.range d2
    ∧ showNullable (Diagnostic.code d1) = showNullable (Diagnostic.code d2).
Proof.
  unfold computeKey. cbv zeta. split.
  - destruct (Diagnostic.range d1) as [[l1 c1] [el1 ec1]],
      (Diagnostic.range d2) as [[l2 c2] [el2 ec2]].
    cbn [Range.start Range.end_ Position.line Position.character].
    intros Heq. simpl in Heq. injection Heq as Heq.
    apply undelimited_split in Heq as [Hl Heq];
      [|by left|apply showNumber_undelimited..].
    apply undelimited_split in Heq as [Hc Heq];
      [|by left|apply showNumber_undelimited..].
    apply undelimited_split in Heq as [Hel Heq];
      [|by left|apply showNumber_undelimited..].
    apply undelimited_split in Heq as [Hec Heq];
      [|by right|apply showNumber_undelimited..].
    injection Heq as Hcode.
    apply (inj pretty) in Hl, Hc, Hel, Hec. by subst.
  - by intros [-> ->].
Qed.

(** X5. [makeDiagnostic] never produces a negative position; a finding
    without an end line or end column ends where it starts on that
    coordinate; for a finding at line and column 1 or more the start is the
    finding's position moved from 1-based to 0-based. *)
Theorem makeDiagnostic_range (problem : ESLintProblem.t) :
  let range := Diagnostic.range (makeDiagnostic problem) in
  (0 ≤ Position.line (Range.start range) ∧ 0 ≤ Position.character (Range.start range)
   ∧ 0 ≤ Position.line (Range.end_ range) ∧ 0 ≤ Position.character (Range.end_ range))%Z
  ∧ (ESLintProblem.endLine problem = None →
     Position.line (Range.end_ range) = Position.line (Range.start range))
  ∧ (ESLintProblem.endColumn problem = None →
     Position.character (Range.end_ range) = Position.character (Range.start range))
  ∧ (1 ≤ ESLintProblem.line problem → 1 ≤ ESLintProblem.column problem →
     Range.start range
     = Position.mk (ESLintProblem.line problem - 1) (ESLintProblem.column problem - 1))%Z.
Proof.
  unfold makeDiagnostic. cbv zeta. simpl.
  destruct (ESLintProblem.endLine problem), (ESLintProblem.endColumn problem);
    repeat split; try done; try lia.
  all: intros Hl Hc; f_equal; lia.
Qed.

(** * Further properties of the correlation store *)

Lemma validate_loop_diagnostics document autoFix findings st :
  (foldl (validateProblem document autoFix) st findings).1
  = st.1 ++ (makeDiagnostic <$> omap id findings).
Proof.
  revert st. induction findings as [|problem findings IH]; intros st.
  - simpl. by rewrite app_nil_r.
  - cbn [foldl]. rewrite IH. destruct problem as [problem|]; simpl.
    + destruct autoFix; simpl; by rewrite <- app_assoc.
    + done.
Qed.

Lemma validate_loop_store_off document findings st :
  (foldl (validateProblem document false) st findings).2 = st.2.
Proof.
  revert st. induction findings as [|problem findings IH]; intros st; [done|].
  cbn [foldl]. rewrite IH. by destruct problem.
Qed.

Lemma validate_off document publishDiagnostics report codeActions :
  validate document false publishDiagnostics (Reports report) codeActions
  = Validated (delete (TextDocument.uri document) codeActions)
      (if publishDiagnostics
       then Some (TextDocument.uri document,
                  makeDiagnostic <$> omap id (findingsOf report))
       else None).
Proof.
  unfold validate, findingsOf.
  destruct (results report) as [|docReport others]; [done|].
  pose proof (validate_loop_diagnostics document false (messages docReport)
                ([], delete (TextDocument.uri document) codeActions)) as Hd.
  pose proof (validate_loop_store_off document (messages docReport)
                ([], delete (TextDocument.uri document) codeActions)) as Hs.
  destruct (foldl _ _ (messages docReport)) as [diagnostics codeActions'].
  simpl in Hd, Hs. by subst.
Qed.

(** X6. The diagnostics of a pass do not depend on the [autoFix] setting or
    on the store: they are the diagnostics of the findings of the first
    result that are not null, in the order of the report, and they are sent
    exactly when [publishDiagnostics] is set.  With [autoFix] off the pass
    leaves the document without an entry and touches no other entry. *)
Theorem validate_publishes_all_findings
    (document : TextDocument.t) (autoFix publishDiagnostics : bool)
    (report : ESLintReport) (codeActions : CodeActions) :
  let sent :=
    if publishDiagnostics
    then Some (TextDocument.uri document, makeDiagnostic <$> omap id (findingsOf report))
    else None in
  (∃ codeActions',
      validate document autoFix publishDiagnostics (Reports report) codeActions
      = Validated codeActions' sent)
  ∧ validate document false publishDiagnostics (Reports report) codeActions
    = Validated (delete (TextDocument.uri document) codeActions) sent.
Proof.
  cbv zeta. split; [|apply validate_off].
  unfold validate, findingsOf.
  destruct (results report) as [|docReport others]; [by eexists|].
  pose proof (validate_loop_diagnostics document autoFix (messages docReport)
                ([], delete (TextDocument.uri document) codeActions)) as Hd.
  destruct (foldl _ _ (messages docReport)) as [diagnostics codeActions'].
  simpl in Hd. subst diagnostics. by eexists.
Qed.

Lemma OMap_set_values {V} (Q : V → Prop) k v (m : OMap.t V) :
  Q v → Forall Q (OMap.values m) → Forall Q (OMap.values (OMap.set k v m)).
Proof.
  intros Hv. unfold OMap.values. induction m as [|[k' v'] m IH]; simpl.
  - intros _. by repeat constructor.
  - intros [Hv' Hm]%Forall_cons. destruct (decide (k' = k)); simpl.
    + by constructor.
    + constructor; [done|by apply IH].
Qed.

Lemma OMap_set_nonempty {V} k (v : V) m : OMap.set k v m ≠ [].
Proof. destruct m as [|[k' v'] m]; simpl; [done|]. by destruct (decide _). Qed.

Lemma OMap_get_values {V} k (v : V) m : OMap.get k m = Some v → v ∈ OMap.values m.
Proof.
  unfold OMap.values. induction m as [|[k' v'] m IH]; simpl; [done|].
  destruct (decide (k' = k)).
  - intros [= ->]. apply elem_of_cons. by left.
  - intros Hget. apply elem_of_cons. right. by apply IH.
Qed.

(** The entries a pass records are never empty and all carry the version of
    the document. *)
Lemma recorded_versions document findings edits :
  recorded document findings = Some edits →
  edits ≠ []
  ∧ Forall (λ f, documentVersion f = TextDocument.version document) (OMap.values edits).
Proof.
  revert edits. induction findings as [|latest findings IH] using rev_ind; intros edits.
  { done. }
  rewrite recorded_snoc. unfold recordInto.
  destruct latest as [latest|]; simpl; [|by apply IH].
  destruct (autoFixOf document latest) as [autoFix|] eqn:Hlatest; simpl; [|by apply IH].
  intros [= <-]. split; [apply OMap_set_nonempty|].
  apply OMap_set_values.
  - unfold autoFixOf in Hlatest.
    destruct (ESLintProblem.fix_ latest), (truthy (ESLintProblem.ruleId latest));
      simpl in Hlatest; try done. by injection Hlatest as <-.
  - destruct (recorded document findings) as [edits'|]; simpl.
    + by apply IH.
    + constructor.
Qed.

Lemma validate_on_entry document publishDiagnostics report codeActions :
  ∃ codeActions' sent,
    validate document true publishDiagnostics (Reports report) codeActions
    = Validated codeActions' sent
    ∧ codeActions' !! TextDocument.uri document = recorded document (findingsOf report)
    ∧ ∀ other, other ≠ TextDocument.uri document →
        codeActions' !! other = codeActions !! other.
Proof.
  unfold validate, findingsOf.
  destruct (results report) as [|docReport others].
  - eexists _, _. split; [done|]. split; [apply lookup_delete_eq|].
    intros other Hne. by apply lookup_delete_ne.
  - destruct (validate_loop_store document (messages docReport)
                ([], delete (TextDocument.uri document) codeActions)) as [Huri Hother].
    destruct (foldl _ _ (messages docReport)) as [diagnostics codeActions'].
    simpl in Huri, Hother. rewrite lookup_delete_eq in Huri.
    eexists _, _. split; [done|]. split; [done|].
    intros other Hne. rewrite Hother by done. by apply lookup_delete_ne.
Qed.

(** X7. After a validation pass the entry of the document, if there is one,
    is not empty, all of its fixes carry the version of the validated
    document, and [getDocumentVersion] returns that version without
    throwing. *)
Theorem validated_entry_has_one_version
    (document : TextDocument.t) (autoFix publishDiagnostics : bool)
    (report : ESLintReport) (codeActions codeActions' : CodeActions) sent edits :
  validate document autoFix publishDiagnostics (Reports report) codeActions
  = Validated codeActions' sent →
  codeActions' !! TextDocument.uri document = Some edits →
  Fixes.isEmpty edits = false
  ∧ Forall (λ f, documentVersion f = TextDocument.version document) (OMap.values edits)
  ∧ Fixes.getDocumentVersion edits = inr (TextDocument.version document).
Proof.
  intros Hvalidate Hedits.
  assert (recorded document (findingsOf report) = Some edits) as Hrecorded.
  { destruct autoFix.
    - destruct (validate_on_entry document publishDiagnostics report codeActions)
        as (codeActions'' & sent' & Hvalidate' & Hentry & _).
      rewrite Hvalidate in Hvalidate'. injection Hvalidate' as <- <-.
      by rewrite <- Hentry.
    - rewrite validate_off in Hvalidate.
      injection Hvalidate as <- _. by rewrite lookup_delete_eq in Hedits. }
  destruct (recorded_versions document (findingsOf report) edits Hrecorded)
    as [Hnonempty Hversions].
  assert (Fixes.isEmpty edits = false) as Hempty.
  { unfold Fixes.isEmpty, OMap.size. apply bool_decide_eq_false_2.
    by destruct edits. }
  split; [done|]. split; [done|].
  unfold Fixes.getDocumentVersion. rewrite Hempty.
  destruct edits as [|[k f] edits]; [done|].
  apply Forall_cons in Hversions as [Hf _]. simpl in Hf |- *. by rewrite Hf.
Qed.

Lemma getScoped_loop (edits : OMap.t AutoFix) (diagnostics : list Diagnostic.t)
    (result : list AutoFix) :
  foldl (λ (result : list AutoFix) (diagnostic : Diagnostic.t),
           let key := computeKey diagnostic in
           match OMap.get key edits with
           | Some editInfo => result ++ [editInfo]
           | None => result
           end)
        result diagnostics
  = result ++ omap (λ diagnostic, OMap.get (computeKey diagnostic) edits) diagnostics.
Proof.
  revert result. induction diagnostics as [|d ds IH]; intros result.
  - simpl. by rewrite app_nil_r.
  - cbn [foldl omap list_omap]. rewrite IH. cbv zeta.
    destruct (OMap.get (computeKey d) edits); [by rewrite <- app_assoc|done].
Qed.

Lemma getScoped_omap edits diagnostics :
  Fixes.getScoped edits diagnostics
  = omap (λ diagnostic, OMap.get (computeKey diagnostic) edits) diagnostics.
Proof. unfold Fixes.getScoped. by rewrite getScoped_loop. Qed.

(** X8. [getScoped] answers each diagnostic with the fix stored under its
    key and skips the diagnostics without one: the fixes come in the order
    of the diagnostics, there are never more fixes than diagnostics, and
    every fix returned is a fix of the map. *)
Theorem getScoped_looks_up_each_diagnostic
    (edits : OMap.t AutoFix) (diagnostics : list Diagnostic.t) :
  Fixes.getScoped edits diagnostics
  = omap (λ diagnostic, OMap.get (computeKey diagnostic) edits) diagnostics
  ∧ length (Fixes.getScoped edits diagnostics) ≤ length diagnostics
  ∧ ∀ f, f ∈ Fixes.getScoped edits diagnostics → f ∈ OMap.values edits.
Proof.
  rewrite getScoped_omap. split; [done|]. split.
  - induction diagnostics as [|d ds IH]; [done|].
    cbn [omap list_omap]. destruct (OMap.get _ _); cbn [length]; lia.
  - intros f (d & _ & Hget)%list_elem_of_omap. by eapply OMap_get_values.
Qed.

(** X9. What a pass records, the next code-action request finds: for the
    diagnostics of findings of the pass that carry a fix and a rule id,
    [getScoped] over the entry of the document returns one fix per
    diagnostic, each with the version of the validated document. *)
Theorem recorded_fixes_are_scoped
    (document : TextDocument.t) (publishDiagnostics : bool) (report : ESLintReport)
    (codeActions codeActions' : CodeActions) sent (problems : list ESLintProblem.t) :
  validate document true publishDiagnostics (Reports report) codeActions
  = Validated codeActions' sent →
  problems ≠ [] →
  (∀ problem, problem ∈ problems →
     Some problem ∈ findingsOf report ∧ fixable problem) →
  ∃ edits,
    codeActions' !! TextDocument.uri document = Some edits
    ∧ length (Fixes.getScoped edits (makeDiagnostic <$> problems)) = length problems
    ∧ Forall (λ f, documentVersion f = TextDocument.version document)
        (Fixes.getScoped edits (makeDiagnostic <$> problems)).
Proof.
  intros Hvalidate Hsome Hproblems.
  destruct (validate_on_entry document publishDiagnostics report codeActions)
    as (codeActions'' & sent' & Hvalidate' & Hentry & _).
  rewrite Hvalidate in Hvalidate'. injection Hvalidate' as <- <-.
  destruct problems as [|first others]; [done|].
  destruct (Hproblems first) as [Hin Hfix]; [apply elem_of_cons; by left|].
  destruct (recorded_finding document (findingsOf report) first Hin Hfix)
    as (edits & _ & _ & Hrecorded & _).
  exists edits. split; [by rewrite Hentry|].
  rewrite getScoped_omap.
  assert (∀ ps : list ESLintProblem.t,
            (∀ problem, problem ∈ ps → Some problem ∈ findingsOf report ∧ fixable problem) →
            length (omap (λ d, OMap.get (computeKey d) edits) (makeDiagnostic <$> ps))
            = length ps
            ∧ Forall (λ f, documentVersion f = TextDocument.version document)
                (omap (λ d, OMap.get (computeKey d) edits) (makeDiagnostic <$> ps)))
    as Hall.
  { induction ps as [|p ps IH]; intros Hps; [by split|].
    destruct (Hps p) as [Hp Hpfix]; [apply elem_of_cons; by left|].
    destruct (recorded_finding document (findingsOf report) p Hp Hpfix)
      as (edits' & autoFix & _ & Hrecorded' & Hget & Hversion & _).
    rewrite Hrecorded in Hrecorded'. injection Hrecorded' as <-.
    destruct IH as [IHlen IHall].
    { intros q Hq. apply Hps, elem_of_cons. by right. }
    cbn [fmap list_fmap omap list_omap]. rewrite Hget.
    split; [simpl; by rewrite IHlen|by constructor]. }
  by apply Hall.
Qed.

(** X10. [getFixes] never throws, although [getDocumentVersion] can: it
    returns a list, and the list holds edits only when the document has an
    entry whose version is the version of the document, in which case the
    edits are those of [getOverlapFree()]. *)
Theorem getFixes_fails_closed (textDocument : TextDocument.t) (codeActions : CodeActions) :
  ∃ textEdits,
    getFixes textDocument codeActions = inr textEdits
    ∧ (textEdits ≠ [] →
       ∃ edits,
         codeActions !! TextDocument.uri textDocument = Some edits
         ∧ Fixes.getDocumentVersion edits = inr (TextDocument.version textDocument)
         ∧ textEdits = textEditOf textDocument <$> Fixes.getOverlapFree edits).
Proof.
  assert (∀ result : string + list TextEdit.t,
            result = inr [] →
            ∃ textEdits,
              result = inr textEdits
              ∧ (textEdits ≠ [] →
                 ∃ edits,
                   codeActions !! TextDocument.uri textDocument = Some edits
                   ∧ Fixes.getDocumentVersion edits
                     = inr (TextDocument.version textDocument)
                   ∧ textEdits = textEditOf textDocument <$> Fixes.getOverlapFree edits))
    as Hnone.
  { intros result ->. exists []. split; [done|]. intros Hne. by destruct Hne. }
  unfold getFixes. cbv zeta.
  destruct (codeActions !! TextDocument.uri textDocument) as [edits|];
    [|by apply Hnone].
  destruct (Fixes.isEmpty edits) eqn:Hempty; [by apply Hnone|].
  destruct (Fixes.getDocumentVersion edits) as [error|version] eqn:Hversion.
  { unfold Fixes.getDocumentVersion in Hversion. rewrite Hempty in Hversion.
    by destruct edits. }
  case_bool_decide as Hdiffer; [by apply Hnone|].
  assert (version = TextDocument.version textDocument) as ->.
  { destruct (decide (TextDocument.version textDocument = version)); [done|].
    by destruct Hdiffer. }
  eexists. split; [done|]. intros _. by exists edits.
Qed.

(** X11. Right after a validation pass the version test of [getFixes]
    cannot fail: for the validated document it returns the edits of all
    fixes of the pass that [getOverlapFree()] keeps. *)
Theorem getFixes_after_validate
    (document : TextDocument.t) (publishDiagnostics : bool) (report : ESLintReport)
    (codeActions codeActions' : CodeActions) sent :
  validate document true publishDiagnostics (Reports report) codeActions
  = Validated codeActions' sent →
  getFixes document codeActions'
  = inr (textEditOf document
           <$> Fixes.getOverlapFree (default [] (recorded document (findingsOf report)))).
Proof.
  intros Hvalidate.
  destruct (validate_on_entry document publishDiagnostics report codeActions)
    as (codeActions'' & sent' & Hvalidate' & Hentry & _).
  rewrite Hvalidate in Hvalidate'. injection Hvalidate' as <- <-.
  unfold getFixes. cbv zeta. rewrite Hentry.
  destruct (recorded document (findingsOf report)) as [edits|] eqn:Hrecorded; [|done].
  destruct (recorded_versions document (findingsOf report) edits Hrecorded)
    as [Hnonempty Hversions].
  assert (Fixes.isEmpty edits = false) as Hempty.
  { unfold Fixes.isEmpty, OMap.size. apply bool_decide_eq_false_2. by destruct edits. }
  rewrite Hempty. unfold Fixes.getDocumentVersion. rewrite Hempty.
  destruct edits as [|[k f] edits]; [done|].
  apply Forall_cons in Hversions as [Hf _]. simpl in Hf.
  cbn [OMap.values fmap list_fmap snd]. rewrite Hf.
  by rewrite bool_decide_eq_false_2 by (by intros ?).
Qed.

(** X12. The command [applyAutoFix] and the save path hand out the same
    edits: for an open document and an identifier with its version,
    whenever the entry of the document carries that version,
    [computeAllFixes] and [getFixes] return the same list. *)
Theorem computeAllFixes_agrees_with_getFixes
    (documents : gmap string TextDocument.t) (codeActions : CodeActions)
    (textDocument : TextDocument.t) (edits : OMap.t AutoFix) :
  documents !! TextDocument.uri textDocument = Some textDocument →
  codeActions !! TextDocument.uri textDocument = Some edits →
  Fixes.getDocumentVersion edits = inr (TextDocument.version textDocument) →
  ∃ textEdits,
    computeAllFixes documents codeActions
      (VersionedTextDocumentIdentifier.mk (TextDocument.uri textDocument)
         (TextDocument.version textDocument))
    = Some textEdits
    ∧ getFixes textDocument codeActions = inr textEdits.
Proof.
  intros Hdocument Hedits Hversion.
  exists (textEditOf textDocument <$> Fixes.getOverlapFree edits).
  unfold computeAllFixes, getFixes. cbv zeta. simpl.
  rewrite Hdocument, Hedits, Hversion.
  assert (Fixes.isEmpty edits = false) as ->.
  { unfold Fixes.getDocumentVersion in Hversion.
    by destruct (Fixes.isEmpty edits). }
  rewrite !bool_decide_eq_false_2 by (by intros ?). simpl.
  by rewrite createTextEdit_open.
Qed.

(** X13. Closing a document deletes its entry and no other: afterwards a
    code-action request for it returns no commands (and does not throw),
    [computeAllFixes] returns nothing and [getFixes] returns no edits. *)
Theorem closed_document_has_no_fixes
    (documents : gmap string TextDocument.t) (codeActions : CodeActions)
    (textDocument : TextDocument.t) (validateSetting : bool)
    (diagnostics : list Diagnostic.t) (version : Z) :
  let uri := TextDocument.uri textDocument in
  let codeActions' := (onDidClose uri validateSetting codeActions).1 in
  codeActionHandler documents codeActions' (mkCodeActionParams uri diagnostics)
  = Some (∅, [])
  ∧ computeAllFixes documents codeActions' (VersionedTextDocumentIdentifier.mk uri version)
    = None
  ∧ getFixes textDocument codeActions' = inr []
  ∧ ∀ other, other ≠ uri → codeActions' !! other = codeActions !! other.
Proof.
  cbv zeta. unfold onDidClose, codeActionHandler, computeAllFixes, getFixes. simpl.
  rewrite !lookup_delete_eq. split; [done|]. split.
  - destruct (documents !! TextDocument.uri textDocument); [|done].
    by destruct (bool_decide _).
  - split; [done|]. intros other Hne. by apply lookup_delete_ne.
Qed.

(** * Further properties of the code-action and execute-command handlers *)

(** X14. A code-action request none of whose diagnostics has a recorded fix
    (no entry, an empty entry, or no matching key) gets no command at all,
    not even the bulk ones, and does not throw, whether or not the document
    is open. *)
Theorem codeAction_without_scoped_fix
    (documents : gmap string TextDocument.t) (codeActions : CodeActions)
    (params : CodeActionParams) :
  (∀ edits, codeActions !! ca_uri params = Some edits →
            Fixes.getScoped edits (ca_diagnostics params) = []) →
  codeActionHandler documents codeActions params = Some (∅, []).
Proof.
  intros Hscoped. unfold codeActionHandler. cbv zeta.
  destruct (codeActions !! ca_uri params) as [edits|]; [|done].
  destruct (Fixes.isEmpty edits); [done|].
  by rewrite (Hscoped edits eq_refl).
Qed.

Lemma scoped_loop_closed uri l st :
  l ≠ [] → foldl (scopedStep uri None) st l = None.
Proof.
  intros Hl.
  assert (∀ l', foldl (scopedStep uri None) None l' = None) as Hnone.
  { induction l' as [|f l' IH]; [done|]. exact IH. }
  destruct l as [|f l]; [done|]. cbn [foldl].
  replace (scopedStep uri None st f) with (@None ScopedState); [apply Hnone|].
  unfold scopedStep. by destruct st as [[[[? ?] ?] ?]|].
Qed.

(** X15. When a diagnostic of the request has a recorded fix but the
    document is not among the open documents, the handler throws (in
    [createTextEdit], reading [positionAt] of [undefined]). *)
Theorem codeAction_throws_without_document
    (documents : gmap string TextDocument.t) (codeActions : CodeActions)
    (params : CodeActionParams) (edits : OMap.t AutoFix) :
  codeActions !! ca_uri params = Some edits →
  documents !! ca_uri params = None →
  Fixes.getScoped edits (ca_diagnostics params) ≠ [] →
  codeActionHandler documents codeActions params = None.
Proof.
  intros Hedits Hdocument Hscoped. unfold codeActionHandler. cbv zeta.
  rewrite Hedits, Hdocument.
  assert (Fixes.isEmpty edits = false) as ->.
  { destruct edits; [by rewrite getScoped_empty in Hscoped|done]. }
  by rewrite scoped_loop_closed.
Qed.




(** * Further properties of the message queue *)

Section MessageQueueFurther.

Context {P R World : Type}.
Variable isCancellationRequested : World → nat → bool.

(** X17. A version provider that reads only the parameters, as the one of
    the execute-command registration does, never makes a message stale:
    the stamp taken when the message is queued is what the provider returns
    at dispatch, in whatever world. *)
Theorem world_independent_provider_never_stale
    (provider : @VersionProvider P World) type params w0 w documentVersion0
    resolve0 reject0 token0 :
  (∀ params w w', provider params w = provider params w') →
  stamp (Some provider) params w0 = Returned documentVersion0 →
  stale (Some provider)
    (mkMessage type params documentVersion0 resolve0 reject0 token0) w
  = Returned false.
Proof.
  intros Hindependent Hstamp. unfold stale. cbn [stamp] in Hstamp. simpl.
  destruct documentVersion0 as [version|]; [|done].
  rewrite (Hindependent params w w0), Hstamp. f_equal.
  apply bool_decide_eq_false_2. by intros Hne.
Qed.

(** X18. A request that arrives, after [registerRequest], on an empty
    queue.  When its version provider throws, nothing is queued and the
    request is rejected with the exception.  Otherwise the drain is armed,
    and the tick that follows (the token not signaled) never finds the
    request stale: it calls the handler once and the caller gets what the
    handler gives: its value, the wait for its [Thenable], or, when the
    handler throws, nothing. *)
Theorem request_dispatched_at_once_is_handled
    (s0 : @Server P R World) type (handler : @RequestHandler P R World)
    (versionProvider : option (@VersionProvider P World)) params token0 sink :
  queue s0 = [] →
  isCancellationRequested (world s0) token0 = false →
  let s := requestArrives type params token0 sink
             (registerRequest type handler versionProvider s0) in
  let ran := handler params token0 (world s0) in
  match stamp versionProvider params (world s0) with
  | Thrown =>
      queue s = [] ∧ timer s = timer s0
      ∧ effects s = effects s0 ++ [Rejects sink ProviderFailure]
  | Returned documentVersion0 =>
      timer s = true
      ∧ queue s = [mkMessage type params documentVersion0
                     (Some sink) (Some sink) (Some token0)]
      ∧ effects (tick isCancellationRequested s)
        = effects s0 ++ [CallRequestHandler type params token0; answer sink ran.2]
      ∧ world (tick isCancellationRequested s) = ran.1.1
  end.
Proof.
  intros Hq Hc. cbv zeta.
  unfold requestArrives. cbn [onRequestListener registerRequest world].
  rewrite lookup_insert_eq.
  destruct (stamp versionProvider params (world s0)) as [documentVersion0|] eqn:Hstamp;
    [|done].
  set (message := mkMessage type params documentVersion0
                    (Some sink) (Some sink) (Some token0)).
  destruct (push_trigger_fields message (registerRequest type handler versionProvider s0))
    as (Hq1 & Ht & Hw & He & Hh & _).
  set (s1 := trigger (push message (registerRequest type handler versionProvider s0))) in *.
  cbn [queue world effects requestHandlers registerRequest] in Hq1, Hw, He, Hh.
  rewrite Hq in Hq1. cbn [app] in Hq1.
  split; [done|]. split; [done|].
  unfold tick. rewrite Ht.
  destruct (processQueue_request_runs isCancellationRequested
              (withTimer s1 false) message [] token0 sink sink
              (mkRequestEntry handler versionProvider)) as [Heffects Hworld].
  - done.
  - done.
  - done.
  - done.
  - cbn [world withTimer]. by rewrite Hw.
  - cbn [requestHandlers withTimer]. rewrite Hh. by rewrite lookup_insert_eq.
  - cbn [world withTimer rq_versionProvider]. rewrite Hw.
    unfold stale, message. simpl.
    destruct versionProvider as [provider|]; [|done].
    cbn [stamp] in Hstamp.
    destruct documentVersion0 as [version|]; [|done].
    rewrite Hstamp. f_equal. apply bool_decide_eq_false_2. by intros Hne.
  - cbn [world effects withTimer] in Heffects, Hworld.
    rewrite Hw in Heffects, Hworld. rewrite He in Heffects. done.
Qed.

Lemma filter_answers_cons sink (e : @Effect P R) es :
  filter (λ e, answers sink e) (e :: es)
  = if answers sink e
    then e :: filter (λ e, answers sink e) es
    else filter (λ e, answers sink e) es.
Proof.
  rewrite filter_cons. destruct (answers sink e); by destruct (decide _).
Qed.

(** X19. The dispatch of a request of a registered method ends in exactly
    one of two ways: one answer to the caller (a rejection, the handler's
    value, or the wait for the handler's [Thenable]), or one exception and no
    answer.  The exception is that of the version provider called for the
    staleness test, or that of the handler; the caller is then left without
    an answer. *)
Theorem dispatched_request_answered_unless_thrown
    (s : @Server P R World) message rest token0 sink elem :
  queue s = message :: rest →
  token message = Some token0 →
  resolve message = Some sink →
  reject message = Some sink →
  requestHandlers s !! method message = Some elem →
  let es := newEffects isCancellationRequested s in
  length (filter (λ e, answers sink e) es) + length (filter (λ e, isThrow e) es) = 1
  ∧ (filter (λ e, isThrow e) es ≠ [] ↔
     isCancellationRequested (world s) token0 = false
     ∧ (stale (rq_versionProvider elem) message (world s) = Thrown
        ∨ (stale (rq_versionProvider elem) message (world s) = Returned false
           ∧ (rq_handler elem (params message) token0 (world s)).2 = Thrown))).
Proof.
  intros Hq Ht Hr Hj He. cbv zeta.
  assert (∀ failure, filter (λ e, answers sink e) [@Rejects P R sink failure]
                     = [Rejects sink failure]) as Hrejected.
  { intros failure. rewrite filter_answers_cons. cbn [answers].
    by rewrite bool_decide_eq_true_2. }
  destruct (isCancellationRequested (world s) token0) eqn:Hc.
  { pose proof (processQueue_cancelled isCancellationRequested s message rest
                  token0 sink sink Hq Ht Hr Hj Hc) as Hp.
    rewrite (newEffects_app isCancellationRequested s [Rejects sink cancelled])
      by (by rewrite Hp).
    rewrite Hrejected. split; [done|]. split; [done|]. by intros [? _]. }
  destruct (stale (rq_versionProvider elem) message (world s)) as [[|]|] eqn:Hst.
  - pose proof (processQueue_request_stale isCancellationRequested s message rest
                  token0 sink sink elem Hq Ht Hr Hj He Hst) as Hp.
    rewrite (newEffects_app isCancellationRequested s [Rejects sink cancelled])
      by (by rewrite Hp).
    rewrite Hrejected. split; [done|]. split; [done|]. by intros [_ [?|[? _]]].
  - destruct (processQueue_request_runs isCancellationRequested s message rest
                token0 sink sink elem Hq Ht Hr Hj Hc He Hst) as [Heffects _].
    rewrite (newEffects_app isCancellationRequested s _ Heffects).
    rewrite !filter_answers_cons, !filter_bool_cons.
    destruct (_.2) as [[value|thenable]|]; cbn [answers answer isThrow];
      rewrite ?bool_decide_eq_true_2 by done.
    + split; [done|]. split; [done|]. by intros [_ [?|[_ ?]]].
    + split; [done|]. split; [done|]. by intros [_ [?|[_ ?]]].
    + split; [done|]. split; [|done]. intros _. split; [done|]. by right.
  - pose proof (processQueue_request_provider_throws isCancellationRequested s
                  message rest token0 sink sink elem Hq Ht Hr Hj Hc He Hst) as Hp.
    rewrite (newEffects_app isCancellationRequested s [ProviderThrows])
      by (by rewrite Hp).
    split; [done|]. split; [|done]. intros _. split; [done|]. by left.
Qed.

(** X20. After a tick that hands a message to its handler, and whose handler
    returns, the drain is armed exactly when the queue is not empty: the
    rest of the queue and what the handler added will be dispatched without
    any further enqueue. *)
Theorem handled_message_rearms_drain (s : @Server P R World) message rest :
  timer s = true →
  queue s = message :: rest →
  (∃ token0 elem result,
      Request_is message = true ∧ token message = Some token0
      ∧ isCancellationRequested (world s) token0 = false
      ∧ requestHandlers s !! method message = Some elem
      ∧ stale (rq_versionProvider elem) message (world s) = Returned false
      ∧ (rq_handler elem (params message) token0 (world s)).2 = Returned result)
  ∨ (∃ elem,
      Request_is message = false
      ∧ notificationHandlers s !! method message = Some elem
      ∧ stale (nt_versionProvider elem) message (world s) = Returned false
      ∧ (nt_handler elem (params message) (world s)).2 = Returned ()) →
  timer (tick isCancellationRequested s) = true
  ↔ queue (tick isCancellationRequested s) ≠ [].
Proof.
  intros Htimer Hq Hhandled. unfold tick. rewrite Htimer.
  destruct Hhandled as [(token0 & elem & result & Hreq & Ht & Hc & He & Hst & Hran)
                       |(elem & Hn & He & Hst & Hran)].
  - apply Request_is_true in Hreq as (token1 & resolve0 & reject0 & Ht' & Hr & Hj).
    rewrite Ht in Ht'. injection Ht' as <-.
    rewrite (processQueue_request_shape isCancellationRequested (withTimer s false)
               message rest token0 resolve0 reject0 elem) by done.
    cbn [world withTimer]. rewrite Hran.
    apply trigger_armed_iff. cbn [timer queue emit].
    apply handled_fields. done.
  - rewrite (processQueue_notification_shape isCancellationRequested (withTimer s false)
               message rest elem) by done.
    cbn [world withTimer]. rewrite Hran.
    apply trigger_armed_iff. apply handled_fields. done.
Qed.

(** X25. A handler that throws leaves the drain as it found it: the message
    is gone from the queue, the call and the exception are the only effects
    (the caller of a request gets no answer), and the drain is armed
    afterwards exactly when the handler added a notification before it
    threw.  If it added none, the rest of the queue waits until a later
    enqueue. *)
Theorem throwing_handler_stalls_drain
    (s : @Server P R World) message rest w (added : list (@Added P)) :
  timer s = true →
  queue s = message :: rest →
  (∃ token0 elem,
      Request_is message = true ∧ token message = Some token0
      ∧ isCancellationRequested (world s) token0 = false
      ∧ requestHandlers s !! method message = Some elem
      ∧ stale (rq_versionProvider elem) message (world s) = Returned false
      ∧ rq_handler elem (params message) token0 (world s) = (w, added, Thrown))
  ∨ (∃ elem,
      Request_is message = false
      ∧ notificationHandlers s !! method message = Some elem
      ∧ stale (nt_versionProvider elem) message (world s) = Returned false
      ∧ nt_handler elem (params message) (world s) = (w, added, Thrown)) →
  let s' := tick isCancellationRequested s in
  effects s' = effects s ++ [callOf message; HandlerThrows]
  ∧ queue s' = rest ++ (addedMessage <$> added)
  ∧ (timer s' = true ↔ added ≠ [])
  ∧ (added = [] → tick isCancellationRequested s' = s').
Proof.
  intros Htimer Hq Hthrown. cbv zeta.
  assert (effects (tick isCancellationRequested s)
          = effects s ++ [callOf message; HandlerThrows]
          ∧ queue (tick isCancellationRequested s) = rest ++ (addedMessage <$> added)
          ∧ (timer (tick isCancellationRequested s) = true ↔ added ≠ []))
    as (He' & Hq' & Ht').
  { unfold tick. rewrite Htimer.
    destruct Hthrown as [(token0 & elem & Hreq & Ht & Hc & He & Hst & Hran)
                        |(elem & Hn & He & Hst & Hran)].
    - assert (callOf message
              = CallRequestHandler (method message) (params message) token0) as ->.
      { unfold callOf. by rewrite Ht, Hreq. }
      apply Request_is_true in Hreq as (token1 & resolve0 & reject0 & Ht' & Hr & Hj).
      rewrite Ht in Ht'. injection Ht' as <-.
      rewrite (processQueue_request_shape isCancellationRequested (withTimer s false)
                 message rest token0 resolve0 reject0 elem) by done.
      cbn [world withTimer]. rewrite Hran. cbn [fst snd answer].
      match goal with
      | |- context [addAll added (withWorld (emit ?s0 [?call]) w)] =>
          destruct (handled_fields s0 call w added) as (Hq1 & He1 & Ht1 & _); [done|]
      end.
      cbn [effects queue timer emit]. rewrite Hq1, He1.
      cbn [effects queue shift withTimer]. by rewrite <- app_assoc.
    - assert (callOf message
              = CallNotificationHandler (method message) (params message)) as ->.
      { unfold callOf. rewrite Hn. by destruct (token message). }
      rewrite (processQueue_notification_shape isCancellationRequested
                 (withTimer s false) message rest elem) by done.
      cbn [world withTimer]. rewrite Hran. cbn [fst snd].
      match goal with
      | |- context [addAll added (withWorld (emit ?s0 [?call]) w)] =>
          destruct (handled_fields s0 call w added) as (Hq1 & He1 & Ht1 & _); [done|]
      end.
      cbn [effects queue timer emit]. rewrite Hq1, He1.
      cbn [effects queue shift withTimer]. by rewrite <- app_assoc. }
  split; [done|]. split; [done|]. split; [done|].
  intros ->.
  assert (timer (tick isCancellationRequested s) = false) as Hunarmed.
  { apply not_true_is_false. intros Harmed. by apply Ht' in Harmed. }
  unfold tick at 1. by rewrite Hunarmed.
Qed.

(** X21. After a tick that rejects a request (its token is signaled, or it
    is stale) or drops a stale notification, no drain is armed, whatever is
    left in the queue: further ticks do nothing, and the rest of the queue
    waits until a later enqueue arms the drain again. *)
Theorem unhandled_message_leaves_drain_unarmed (s : @Server P R World) message rest :
  timer s = true →
  queue s = message :: rest →
  (∃ token0,
      Request_is message = true ∧ token message = Some token0
      ∧ isCancellationRequested (world s) token0 = true)
  ∨ (∃ elem,
      Request_is message = true
      ∧ requestHandlers s !! method message = Some elem
      ∧ stale (rq_versionProvider elem) message (world s) = Returned true)
  ∨ (∃ elem,
      Request_is message = false
      ∧ notificationHandlers s !! method message = Some elem
      ∧ stale (nt_versionProvider elem) message (world s) = Returned true) →
  let s' := tick isCancellationRequested s in
  timer s' = false
  ∧ queue s' = rest
  ∧ tick isCancellationRequested s' = s'
  ∧ ∀ type params version,
      timer (addNotificationMessage type params version s') = true
      ∧ queue (addNotificationMessage type params version s')
        = rest ++ [mkMessage type params (Some version) None None None].
Proof.
  intros Htimer Hq Hunhandled. cbv zeta.
  assert (timer (tick isCancellationRequested s) = false
          ∧ queue (tick isCancellationRequested s) = rest) as [Ht' Hq'].
  { unfold tick. rewrite Htimer.
    destruct Hunhandled as [(token0 & Hreq & Ht & Hc)
                           |[(elem & Hreq & He & Hst)|(elem & Hn & He & Hst)]].
    - apply Request_is_true in Hreq as (token1 & resolve0 & reject0 & Ht' & Hr & Hj).
      rewrite Ht in Ht'. injection Ht' as <-.
      by rewrite (processQueue_cancelled isCancellationRequested (withTimer s false)
                    message rest token0 resolve0 reject0).
    - apply Request_is_true in Hreq as (token0 & resolve0 & reject0 & Ht & Hr & Hj).
      by rewrite (processQueue_request_stale isCancellationRequested
                    (withTimer s false) message rest token0 resolve0 reject0 elem).
    - by rewrite (processQueue_notification_stale isCancellationRequested
                    (withTimer s false) message rest elem). }
  split; [done|]. split; [done|]. split.
  - unfold tick at 1. by rewrite Ht'.
  - intros type params version. unfold addNotificationMessage.
    destruct (push_trigger_fields (mkMessage type params (Some version) None None None)
                (tick isCancellationRequested s)) as (-> & -> & _).
    by rewrite Hq'.
Qed.

(** X22. A message whose method has no handler makes the dispatch throw:
    the message is gone from the queue, no handler is called, and the
    drain is not armed again. *)
Theorem unregistered_method_throws (s : @Server P R World) message rest :
  timer s = true →
  queue s = message :: rest →
  (Request_is message = false ∧ notificationHandlers s !! method message = None)
  ∨ (∃ token0,
      Request_is message = true ∧ token message = Some token0
      ∧ isCancellationRequested (world s) token0 = false
      ∧ requestHandlers s !! method message = None) →
  let s' := tick isCancellationRequested s in
  effects s' = effects s ++ [ThrowsTypeError]
  ∧ queue s' = rest ∧ timer s' = false ∧ world s' = world s.
Proof.
  intros Htimer Hq Hmissing. cbv zeta. unfold tick. rewrite Htimer.
  unfold processQueue. cbn [queue withTimer]. rewrite Hq.
  destruct Hmissing as [[Hn He]|(token0 & Hreq & Ht & Hc & He)].
  - rewrite Hn. cbn [notificationHandlers shift withTimer]. by rewrite He.
  - rewrite Hreq.
    apply Request_is_true in Hreq as (token1 & resolve0 & reject0 & Ht' & Hr & Hj).
    rewrite Ht in Ht'. injection Ht' as <-. rewrite Ht, Hr, Hj.
    cbn [world requestHandlers shift withTimer]. by rewrite Hc, He.
Qed.

Lemma quiet_notification_tick (s : @Server P R World) message rest elem :
  timer s = true →
  queue s = message :: rest → Request_is message = false →
  msgVersion message = None →
  notificationHandlers s !! method message = Some elem →
  (∃ w, nt_handler elem (params message) (world s) = (w, [], Returned ())) →
  let s' := tick isCancellationRequested s in
  queue s' = rest
  ∧ timer s' = bool_decide (rest ≠ [])
  ∧ effects s' = effects s ++ [CallNotificationHandler (method message) (params message)]
  ∧ shifted s' = shifted s ++ [message]
  ∧ notificationHandlers s' = notificationHandlers s.
Proof.
  intros Htimer Hq Hn Hversion He [w Hquiet]. cbv zeta. unfold tick. rewrite Htimer.
  rewrite (processQueue_notification_shape isCancellationRequested
             (withTimer s false) message rest elem);
    [|done|done|done|].
  - cbn [world withTimer]. rewrite Hquiet. cbn [fst snd addAll foldl].
    unfold trigger.
    cbn [timer queue withWorld emit shift withTimer orb effects shifted
         notificationHandlers].
    destruct rest as [|next rest]; [done|].
    rewrite bool_decide_eq_false_2 by done. by rewrite bool_decide_eq_true_2.
  - unfold stale. rewrite Hversion. by destruct (nt_versionProvider elem).
Qed.

(** X23. A queue of notifications without a snapshot, whose handlers return
    without adding to the queue, drains completely once it is armed: as many
    ticks as there are messages call the handlers in the order of the queue
    and leave the queue empty and the drain unarmed. *)
Theorem unversioned_notifications_drain (s : @Server P R World) message rest :
  timer s = true →
  queue s = message :: rest →
  Forall (λ m, Request_is m = false ∧ msgVersion m = None
               ∧ ∃ elem, notificationHandlers s !! method m = Some elem
                         ∧ ∀ params w,
                             ∃ w', nt_handler elem params w = (w', [], Returned ()))
         (message :: rest) →
  let s' := drain isCancellationRequested (S (length rest)) s in
  queue s' = []
  ∧ timer s' = false
  ∧ effects s'
    = effects s ++ ((λ m, CallNotificationHandler (method m) (params m))
                      <$> message :: rest)
  ∧ shifted s' = shifted s ++ message :: rest.
Proof.
  revert s message. induction rest as [|next rest IH]; intros s message Htimer Hq Hall.
  - apply Forall_cons in Hall as [(Hn & Hversion & elem & He & Hquiet) _].
    destruct (quiet_notification_tick s message [] elem) as (Hq' & Ht' & He' & Hs' & _);
      [done..|].
    cbv zeta. cbn [drain length]. by rewrite Htimer.
  - apply Forall_cons in Hall as [(Hn & Hversion & elem & He & Hquiet) Hrest].
    destruct (quiet_notification_tick s message (next :: rest) elem)
      as (Hq' & Ht' & He' & Hs' & Hh'); [done..|].
    rewrite bool_decide_eq_true_2 in Ht' by done.
    cbv zeta. cbn [length].
    change (drain isCancellationRequested (S (S (length rest))) s)
      with (if timer s
            then drain isCancellationRequested (S (length rest))
                   (tick isCancellationRequested s)
            else s).
    rewrite Htimer.
    destruct (IH (tick isCancellationRequested s) next Ht' Hq') as (-> & -> & -> & ->).
    { eapply Forall_impl; [exact Hrest|]. intros m (? & ? & elem' & ? & ?).
      split; [done|]. split; [done|]. exists elem'. by rewrite Hh'. }
    rewrite He', Hs'. cbn [fmap list_fmap]. by rewrite <- !app_assoc.
Qed.

End MessageQueueFurther.

(** * Properties of [isUNC] *)

Lemma hostEnd_app host after pos :
  Backslash ∉ host → hostEnd (host ++ Backslash :: after) pos = pos + length host.
Proof.
  revert pos. induction host as [|code host IH]; intros pos Hhost;
    cbn [hostEnd app length].
  - rewrite bool_decide_eq_true_2 by done. lia.
  - apply not_elem_of_cons in Hhost as [Hcode Hhost].
    rewrite bool_decide_eq_false_2 by done. rewrite IH by done. lia.
Qed.

Lemma hostEnd_decompose rest pos :
  (hostEnd rest pos = pos + length rest ∧ (Backslash ∉ rest))
  ∨ ∃ host after,
      rest = host ++ Backslash :: after ∧ (Backslash ∉ host)
      ∧ hostEnd rest pos = pos + length host.
Proof.
  revert pos. induction rest as [|code rest IH]; intros pos; cbn [hostEnd length].
  - left. split; [lia|apply not_elem_of_nil].
  - case_bool_decide as Hcode.
    + right. exists [], rest. subst code. split; [done|].
      split; [apply not_elem_of_nil|simpl; lia].
    + destruct (IH (S pos)) as [[-> Hrest]|(host & after & -> & Hhost & ->)].
      * left. split; [lia|]. apply not_elem_of_cons. by split.
      * right. exists (code :: host), after. split; [done|].
        split; [apply not_elem_of_cons; by split|simpl; lia].
Qed.

Lemma lookup_after_host host after :
  (Backslash :: Backslash :: host ++ Backslash :: after) !! (2 + length host + 1)
  = after !! 0.
Proof.
  replace (Backslash :: Backslash :: host ++ Backslash :: after)
    with ((Backslash :: Backslash :: host ++ [Backslash]) ++ after)
    by (simpl; by rewrite <- app_assoc).
  rewrite lookup_app_r by (simpl; rewrite length_app; simpl; lia).
  f_equal. simpl. rewrite length_app. simpl. lia.
Qed.

(** X24. [isUNC] holds exactly for the paths [\\host\share...] on Windows:
    the platform is [win32] and the path is two backslashes, a non-empty
    host name without a backslash, a backslash, and at least one more code
    unit that is not a backslash.  On every other platform, and for every
    path of fewer than five code units, it is false. *)
Theorem isUNC_characterisation (platform : string) (path : list Z) :
  isUNC platform path = true
  ↔ platform = "win32"
    ∧ ∃ host code share,
        path = Backslash :: Backslash :: host ++ Backslash :: code :: share
        ∧ host ≠ [] ∧ (Backslash ∉ host) ∧ code ≠ Backslash.
Proof.
  unfold isUNC, charCodeAt. cbv zeta. split.
  - case_bool_decide as Hplatform; [done|].
    destruct (bool_decide (path = []) || bool_decide (length path < 5)); [done|].
    destruct path as [|first [|second rest]]; cbn [lookup list_lookup skipn].
    { by rewrite bool_decide_eq_true_2. }
    { case_bool_decide; [done|]. by rewrite bool_decide_eq_true_2. }
    case_bool_decide as Hfirst; [done|]. case_bool_decide as Hsecond; [done|].
    injection Hfirst as ->. injection Hsecond as ->. rewrite drop_0.
    destruct (hostEnd_decompose rest 2)
      as [[Hend Hrest]|(host & after & -> & Hhost & Hend)]; rewrite Hend.
    + case_bool_decide; [done|].
      by rewrite lookup_ge_None_2 by (simpl; lia).
    + case_bool_decide as Hempty; [done|].
      rewrite lookup_after_host.
      destruct after as [|code share]; [done|]. cbn [lookup list_lookup].
      case_bool_decide as Hcode; [done|]. intros _.
      split; [done|]. exists host, code, share. split; [done|].
      split; [|done]. intros ->. simpl in Hempty. lia.
  - intros (-> & host & code & share & -> & Hhost & Hfree & Hcode).
    rewrite bool_decide_eq_false_2 by (by intros ?).
    rewrite (bool_decide_eq_false_2 (_ = [])) by done.
    rewrite bool_decide_eq_false_2; last first.
    { cbn [length]. rewrite length_app. cbn [length].
      destruct host; [done|]. simpl. lia. }
    cbn [orb lookup list_lookup skipn].
    rewrite !bool_decide_eq_false_2 by (by intros ?).
    rewrite drop_0, hostEnd_app by done.
    rewrite bool_decide_eq_false_2 by (destruct host; [done|simpl; lia]).
    rewrite lookup_after_host. cbn [lookup list_lookup].
    by rewrite bool_decide_eq_false_2.
Qed.

(** * The further properties at concrete inputs *)

(** The keys of a diagnostic of the rule [semi], of one whose code is [null]
    and of one without a code. *)
Example computeKey_examples :
  let diagnostic code :=
    Diagnostic.mk "problem" Error "eslint"
      (Range.mk (Position.mk 0 10) (Position.mk 2 12)) code in
  computeKey (diagnostic (Defined "semi")) = "[0,10,2,12]-semi"
  ∧ computeKey (diagnostic Null) = "[0,10,2,12]-null"
  ∧ computeKey (diagnostic Undefined) = "[0,10,2,12]-undefined".
Proof. repeat split; by vm_compute. Qed.

Example isUNC_examples :
  isUNC "win32" uncPath = true
  ∧ isUNC "linux" uncPath = false
  ∧ isUNC "win32" [92; 92; 104; 92]%Z = false
  ∧ isUNC "win32" [92; 92; 92; 115; 104; 97]%Z = false
  ∧ isUNC "win32" [92; 92; 104; 111; 115; 116; 92]%Z = false
  ∧ isUNC "win32" [92; 92; 104; 111; 115; 116; 92; 92]%Z = false.
Proof. repeat split; by vm_compute. Qed.

Lemma getOverlapFree_keeps_all_when_apart_witness :
  Fixes.getOverlapFree apartEdits = Fixes.getAllSorted apartEdits.
Proof.
  apply (getOverlapFree_keeps_all_when_apart apartEdits).
  vm_compute. reflexivity.
Defined.

Lemma validated_entry_has_one_version_witness :
  Fixes.isEmpty exampleEdits = false
  ∧ Forall (λ f, documentVersion f = TextDocument.version exampleDocument)
      (OMap.values exampleEdits)
  ∧ Fixes.getDocumentVersion exampleEdits = inr (TextDocument.version exampleDocument).
Proof.
  apply (validated_entry_has_one_version exampleDocument true true exampleReport
           ∅ exampleStore
           (Some ("file:///a.js", makeDiagnostic <$> exampleProblems))).
  - vm_compute. reflexivity.
  - vm_compute. reflexivity.
Defined.

Lemma recorded_fixes_are_scoped_witness :
  ∃ edits,
    exampleStore !! TextDocument.uri exampleDocument = Some edits
    ∧ length (Fixes.getScoped edits (makeDiagnostic <$> exampleProblems))
      = length exampleProblems
    ∧ Forall (λ f, documentVersion f = TextDocument.version exampleDocument)
        (Fixes.getScoped edits (makeDiagnostic <$> exampleProblems)).
Proof.
  apply (recorded_fixes_are_scoped exampleDocument true exampleReport ∅ exampleStore
           (Some ("file:///a.js", makeDiagnostic <$> exampleProblems))
           exampleProblems).
  - vm_compute. reflexivity.
  - discriminate.
  - intros problem Hproblem. split.
    + unfold findingsOf, exampleReport. cbn [results messages].
      apply list_elem_of_fmap. by exists problem.
    + unfold exampleProblems in Hproblem.
      repeat (apply elem_of_cons in Hproblem as [->|Hproblem];
              [split; eexists; reflexivity|]).
      by apply elem_of_nil in Hproblem.
Defined.

Lemma getFixes_after_validate_witness :
  getFixes exampleDocument exampleStore
  = inr (textEditOf exampleDocument
           <$> Fixes.getOverlapFree
                 (default [] (recorded exampleDocument (findingsOf exampleReport)))).
Proof.
  apply (getFixes_after_validate exampleDocument true exampleReport ∅ exampleStore
           (Some ("file:///a.js", makeDiagnostic <$> exampleProblems))).
  vm_compute. reflexivity.
Defined.

Lemma computeAllFixes_agrees_with_getFixes_witness :
  ∃ textEdits,
    computeAllFixes {[exampleUri := exampleDocument]} exampleStore
      (VersionedTextDocumentIdentifier.mk (TextDocument.uri exampleDocument)
         (TextDocument.version exampleDocument))
    = Some textEdits
    ∧ getFixes exampleDocument exampleStore = inr textEdits.
Proof.
  apply (computeAllFixes_agrees_with_getFixes {[exampleUri := exampleDocument]}
           exampleStore exampleDocument exampleEdits).
  - vm_compute. reflexivity.
  - vm_compute. reflexivity.
  - vm_compute. reflexivity.
Defined.

Lemma codeAction_without_scoped_fix_witness :
  codeActionHandler {[exampleUri := exampleDocument]} exampleStore
    (mkCodeActionParams exampleUri [makeDiagnostic (exampleProblem "semi" 2 0 5)])
  = Some (∅, []).
Proof.
  apply (codeAction_without_scoped_fix {[exampleUri := exampleDocument]} exampleStore
           (mkCodeActionParams exampleUri [makeDiagnostic (exampleProblem "semi" 2 0 5)])).
  intros edits Hedits.
  assert (Some edits = Some exampleEdits) as Heq.
  { rewrite <- Hedits. vm_compute. reflexivity. }
  injection Heq as ->. vm_compute. reflexivity.
Defined.

Lemma codeAction_throws_without_document_witness :
  codeActionHandler ∅ exampleStore exampleParams = None.
Proof.
  apply (codeAction_throws_without_document ∅ exampleStore exampleParams exampleEdits).
  - vm_compute. reflexivity.
  - reflexivity.
  - vm_compute. discriminate.
Defined.


Lemma world_independent_provider_never_stale_witness :
  stale (Some executeCommandProvider)
    (mkMessage "workspace/executeCommand"
       (mkExecuteCommandParams CommandIds.applyAutoFix
          [VersionedTextDocumentIdentifier.mk exampleUri 3])
       (Some 3%Z) (Some 1) (Some 1) (Some 1))
    {[exampleUri := 4%Z]}
  = Returned false.
Proof.
  apply (world_independent_provider_never_stale executeCommandProvider
           "workspace/executeCommand" _ {[exampleUri := 3%Z]}).
  - intros params w w'. reflexivity.
  - reflexivity.
Defined.

Lemma request_dispatched_at_once_is_handled_witness :
  let s0 : @Server string unit Documents := newServer {[exampleUri := 3%Z]} in
  let s := requestArrives codeActionType exampleUri 1 1
             (registerRequest codeActionType answering (Some codeActionVersion) s0) in
  timer s = true
  ∧ queue s = [mkMessage codeActionType exampleUri (world s0 !! exampleUri)
                 (Some 1) (Some 1) (Some 1)]
  ∧ effects (tick neverCancelled s)
    = effects s0 ++ [CallRequestHandler codeActionType exampleUri 1; Resolves 1 ()]
  ∧ world (tick neverCancelled s) = world s0.
Proof.
  exact (request_dispatched_at_once_is_handled neverCancelled
           (newServer {[exampleUri := 3%Z]}) codeActionType answering
           (Some codeActionVersion) exampleUri 1 1 eq_refl eq_refl).
Defined.

(** The request whose handler throws: no answer, one exception. *)
Lemma dispatched_request_answered_unless_thrown_witness :
  let es := newEffects neverCancelled throwingServer in
  length (filter (λ e, answers 1 e) es) + length (filter (λ e, isThrow e) es) = 1
  ∧ (filter (λ e, isThrow e) es ≠ [] ↔
     neverCancelled (world throwingServer) 1 = false
     ∧ (stale (Some codeActionVersion) (requestMessage (Some 3%Z) 1)
          (world throwingServer) = Thrown
        ∨ (stale (Some codeActionVersion) (requestMessage (Some 3%Z) 1)
             (world throwingServer) = Returned false
           ∧ (throwing exampleUri 1 (world throwingServer)).2 = Thrown))).
Proof.
  apply (dispatched_request_answered_unless_thrown neverCancelled throwingServer
           (requestMessage (Some 3%Z) 1)
           [mkMessage codeActionType exampleUri (Some 3%Z) (Some 2) (Some 2) (Some 2)]
           1 1 (mkRequestEntry throwing (Some codeActionVersion))).
  - vm_compute. reflexivity.
  - reflexivity.
  - reflexivity.
  - reflexivity.
  - vm_compute. reflexivity.
Defined.

Lemma handled_message_rearms_drain_witness :
  timer (tick neverCancelled plainServer) = true
  ↔ queue (tick neverCancelled plainServer) ≠ [].
Proof.
  apply (handled_message_rearms_drain neverCancelled plainServer
           (plainMessage "first") [plainMessage "second"]).
  - vm_compute. reflexivity.
  - vm_compute. reflexivity.
  - right. exists (mkNotificationEntry validateHandler None).
    split; [reflexivity|]. split; [vm_compute; reflexivity|].
    split; reflexivity.
Defined.

(** The first of two requests whose handler throws: the second stays in the
    queue and no drain is armed. *)
Lemma throwing_handler_stalls_drain_witness :
  let s' := tick neverCancelled throwingServer in
  effects s'
  = effects throwingServer ++ [callOf (requestMessage (Some 3%Z) 1); HandlerThrows]
  ∧ queue s'
    = [mkMessage codeActionType exampleUri (Some 3%Z) (Some 2) (Some 2) (Some 2)]
      ++ (addedMessage <$> [])
  ∧ (timer s' = true ↔ @nil (@Added string) ≠ [])
  ∧ (@nil (@Added string) = [] → tick neverCancelled s' = s').
Proof.
  apply (throwing_handler_stalls_drain neverCancelled throwingServer
           (requestMessage (Some 3%Z) 1)
           [mkMessage codeActionType exampleUri (Some 3%Z) (Some 2) (Some 2) (Some 2)]
           (world throwingServer) []).
  - vm_compute. reflexivity.
  - vm_compute. reflexivity.
  - left. exists 1, (mkRequestEntry throwing (Some codeActionVersion)).
    split; [reflexivity|]. split; [reflexivity|]. split; [reflexivity|].
    split; [vm_compute; reflexivity|]. split; [vm_compute; reflexivity|reflexivity].
Defined.

Lemma unhandled_message_leaves_drain_unarmed_witness :
  let s' := tick neverCancelled scenario3Server in
  timer s' = false
  ∧ queue s' = [mkMessage validateType "file:///a.js" (Some 2%Z) None None None]
  ∧ tick neverCancelled s' = s'
  ∧ ∀ type params version,
      timer (addNotificationMessage type params version s') = true
      ∧ queue (addNotificationMessage type params version s')
        = [mkMessage validateType "file:///a.js" (Some 2%Z) None None None]
          ++ [mkMessage type params (Some version) None None None].
Proof.
  apply (unhandled_message_leaves_drain_unarmed neverCancelled scenario3Server
           (mkMessage validateType "file:///a.js" (Some 1%Z) None None None)
           [mkMessage validateType "file:///a.js" (Some 2%Z) None None None]).
  - vm_compute. reflexivity.
  - vm_compute. reflexivity.
  - right. right. exists (mkNotificationEntry validateHandler (Some validateVersion)).
    split; [reflexivity|]. split; vm_compute; reflexivity.
Defined.

Lemma unregistered_method_throws_witness :
  let s' := tick neverCancelled orphanServer in
  effects s' = effects orphanServer ++ [ThrowsTypeError]
  ∧ queue s' = [] ∧ timer s' = false ∧ world s' = world orphanServer.
Proof.
  apply (unregistered_method_throws neverCancelled orphanServer
           (mkMessage "orphan/notification" exampleUri (Some 1%Z) None None None) []).
  - vm_compute. reflexivity.
  - vm_compute. reflexivity.
  - left. split; [reflexivity|vm_compute; reflexivity].
Defined.

Lemma unversioned_notifications_drain_witness :
  let s' := drain neverCancelled 2 plainServer in
  queue s' = []
  ∧ timer s' = false
  ∧ effects s'
    = effects plainServer
      ++ ((λ m, CallNotificationHandler (method m) (params m))
            <$> [plainMessage "first"; plainMessage "second"])
  ∧ shifted s' = shifted plainServer ++ [plainMessage "first"; plainMessage "second"].
Proof.
  apply (unversioned_notifications_drain neverCancelled plainServer
           (plainMessage "first") [plainMessage "second"]).
  - vm_compute. reflexivity.
  - vm_compute. reflexivity.
  - repeat constructor;
      exists (mkNotificationEntry validateHandler None);
      (split; [vm_compute; reflexivity|intros params w; by exists w]).
Defined.
